(** * Pomodoro timer: the component of [src/app/page.tsx] as a state machine

    The React component [PomodoroApp] is embedded as a record of its
    [useState] and [useRef] cells together with the host's table of armed
    interval timers.  Event handlers are functions on that record; the
    [useEffect] that holds the timer logic is re-run, as React does, whenever
    one of its dependencies changed, until the dependencies are stable.

    Numbers: the counters and durations are JavaScript numbers that only ever
    hold integers far below 2^53, so they are embedded as [Z]; [%] is JavaScript's
    remainder, [Z.rem].  [alarmVolume], the gain and the progress percentage are
    rationals ([Q]) standing for the doubles the browser computes. *)

From Stdlib Require Import ZArith QArith Qround Bool List Ascii String Lia.
Import ListNotations.
Local Open Scope Z_scope.

(** ** Platform: what the browser may do when the alarm is delivered *)

Inductive Permission := granted | denied | default.

Definition isGranted (p : Permission) : bool :=
  match p with granted => true | _ => false end.

(** The environment answers every platform call the component makes:
    constructing the [AudioContext], driving the oscillator, whether
    [Notification] exists in [window], its permission, and constructing a
    [Notification].  The effect that runs once on mount only asks for the
    permission; what the user answered is the [permission] found here. *)
Record Env := {
  audioContextThrows : bool;
  oscillatorThrows : bool;
  notificationInWindow : bool;
  permission : Permission;
  notificationThrows : bool
}.

(** What leaves the component: the tone, the notification, console lines, and
    a marker for each run of the branch commented [Timer finished]. *)
Inductive Obs :=
| Beep (gain : Q)
| Notification (title body : string)
| ConsoleLog (msg : string)
| TimerFinished.

Fixpoint finishedCount (l : list Obs) : nat :=
  match l with
  | [] => 0%nat
  | TimerFinished :: r => S (finishedCount r)
  | _ :: r => finishedCount r
  end.

(** A computation of the component either returns, throws out of the effect
    (React then tears the component down), or re-renders without end. *)
Inductive Outcome (A : Type) :=
| Ok (a : A)
| Threw
| Diverged.
Arguments Ok {A} a.
Arguments Threw {A}.
Arguments Diverged {A}.

(** ** The component's cells *)

Record App := {
  (* useState *)
  timeLeft : Z;
  isActive : bool;
  isBreak : bool;
  completedPomodoros : Z;
  showSettings : bool;
  workDuration : Z;
  shortBreakDuration : Z;
  longBreakDuration : Z;
  alarmVolume : Q;
  (* useRef *)
  intervalRef : option nat;
  audioContextRef : bool;
  (* host: armed intervals and the next handle setInterval returns *)
  timers : list nat;
  nextTimer : nat
}.

Definition setTimeLeft (v : Z) (s : App) : App :=
  let '(Build_App _ a b c g w sb lb av ir ac tm nt) := s in
  Build_App v a b c g w sb lb av ir ac tm nt.

Definition setIsActive (v : bool) (s : App) : App :=
  let '(Build_App t _ b c g w sb lb av ir ac tm nt) := s in
  Build_App t v b c g w sb lb av ir ac tm nt.

Definition setIsBreak (v : bool) (s : App) : App :=
  let '(Build_App t a _ c g w sb lb av ir ac tm nt) := s in
  Build_App t a v c g w sb lb av ir ac tm nt.

Definition setCompletedPomodoros (v : Z) (s : App) : App :=
  let '(Build_App t a b _ g w sb lb av ir ac tm nt) := s in
  Build_App t a b v g w sb lb av ir ac tm nt.

Definition setShowSettings (v : bool) (s : App) : App :=
  let '(Build_App t a b c _ w sb lb av ir ac tm nt) := s in
  Build_App t a b c v w sb lb av ir ac tm nt.

Definition setWorkDuration (v : Z) (s : App) : App :=
  let '(Build_App t a b c g _ sb lb av ir ac tm nt) := s in
  Build_App t a b c g v sb lb av ir ac tm nt.

Definition setShortBreakDuration (v : Z) (s : App) : App :=
  let '(Build_App t a b c g w _ lb av ir ac tm nt) := s in
  Build_App t a b c g w v lb av ir ac tm nt.

Definition setLongBreakDuration (v : Z) (s : App) : App :=
  let '(Build_App t a b c g w sb _ av ir ac tm nt) := s in
  Build_App t a b c g w sb v av ir ac tm nt.

Definition setAlarmVolume (v : Q) (s : App) : App :=
  let '(Build_App t a b c g w sb lb _ ir ac tm nt) := s in
  Build_App t a b c g w sb lb v ir ac tm nt.

Definition setAudioContextRef (v : bool) (s : App) : App :=
  let '(Build_App t a b c g w sb lb av ir _ tm nt) := s in
  Build_App t a b c g w sb lb av ir v tm nt.

(** [clearInterval id]: the host forgets the handle; clearing a handle that is
    not armed does nothing. *)
Definition clearInterval (id : nat) (s : App) : App :=
  let '(Build_App t a b c g w sb lb av ir ac tm nt) := s in
  Build_App t a b c g w sb lb av ir ac
            (filter (fun j => negb (Nat.eqb j id)) tm) nt.

(** [intervalRef.current = setInterval(...)]: a fresh handle is armed and
    stored in the ref. *)
Definition setInterval (s : App) : App :=
  let '(Build_App t a b c g w sb lb av _ ac tm nt) := s in
  Build_App t a b c g w sb lb av (Some nt) ac (nt :: tm) (S nt).

(** The state after mounting: the [useState] initial values, no timer armed. *)
Definition initial : App := {|
  timeLeft := 25 * 60;
  isActive := false;
  isBreak := false;
  completedPomodoros := 0;
  showSettings := false;
  workDuration := 25;
  shortBreakDuration := 5;
  longBreakDuration := 15;
  alarmVolume := 5 # 10;
  intervalRef := None;
  audioContextRef := false;
  timers := [];
  nextTimer := 1
|}.

(** ** playBeep, playAlarm *)

Definition audioFailed : string := "Audio not supported or failed:".
Definition audioContextFailed : string := "Audio context creation failed:".

(** [playBeep]: the whole body sits in [try]; whatever throws is logged. *)
Definition playBeep (env : Env) (s : App) : App * list Obs :=
  if negb (audioContextRef s) && audioContextThrows env
  then (s, [ConsoleLog audioFailed])
  else
    let s1 := if negb (audioContextRef s) then setAudioContextRef true s else s in
    if oscillatorThrows env
    then (s1, [ConsoleLog audioFailed])
    else (s1, [Beep (alarmVolume s * (3 # 10))%Q]).

(** [playAlarm]: the beep, then the notification when [Notification] is in
    [window] and permission is granted.  The constructor call is not inside
    any [try]. *)
Definition playAlarm (env : Env) (s : App) : Outcome (App * list Obs) :=
  let '(s1, o) := playBeep env s in
  if notificationInWindow env && isGranted (permission env)
  then
    if notificationThrows env then Threw
    else Ok (s1, o ++ [Notification
                         (if isBreak s then "Break time is over!" else "Pomodoro completed!")
                         (if isBreak s then "Time to get back to work!" else "Time for a break!")])
  else Ok (s1, o).

(** The alarm returns unless a notification is attempted and its constructor
    throws. *)
Definition alarmReturns (env : Env) : bool :=
  negb (notificationInWindow env && isGranted (permission env) && notificationThrows env).

(** ** Timer logic: the body of the [useEffect] *)

(** The state updates of the [Timer finished] branch, after the alarm. *)
Definition phaseComplete (s : App) : App :=
  let s1 :=
    if isBreak s
    then setTimeLeft (workDuration s * 60) (setIsBreak false s)
    else
      let newCompletedCount := completedPomodoros s + 1 in
      let isLongBreak := Z.rem newCompletedCount 4 =? 0 in
      setTimeLeft (if isLongBreak then longBreakDuration s * 60
                   else shortBreakDuration s * 60)
                  (setIsBreak true (setCompletedPomodoros newCompletedCount s))
  in setIsActive false s1.

Definition timerEffect (env : Env) (s : App) : Outcome (App * list Obs) :=
  if isActive s && (0 <? timeLeft s)
  then Ok (setInterval s, [])
  else if timeLeft s =? 0
  then
    match playAlarm env s with
    | Ok (s1, o) => Ok (phaseComplete s1, TimerFinished :: o)
    | Threw => Threw
    | Diverged => Diverged
    end
  else Ok (s, []).

(** The effect's cleanup: [if (intervalRef.current) clearInterval(...)]. *)
Definition cleanup (s : App) : App :=
  match intervalRef s with
  | Some id => clearInterval id s
  | None => s
  end.

(** The dependency array of the effect. *)
Definition deps (s : App) : bool * Z * bool * Z * Z * Z * Z :=
  (isActive s, timeLeft s, isBreak s, workDuration s, shortBreakDuration s,
   longBreakDuration s, completedPomodoros s).

Definition depsEqb (d e : bool * Z * bool * Z * Z * Z * Z) : bool :=
  let '(a1, t1, b1, w1, s1, l1, c1) := d in
  let '(a2, t2, b2, w2, s2, l2, c2) := e in
  Bool.eqb a1 a2 && (t1 =? t2) && Bool.eqb b1 b2 && (w1 =? w2) && (s1 =? s2)
  && (l1 =? l2) && (c1 =? c2).

(** After a render React compares the dependencies with those of the previous
    render; when one changed it runs the previous cleanup and then the effect,
    whose state updates cause the next render. *)
Fixpoint settle (rounds : nat) (env : Env) (prev : bool * Z * bool * Z * Z * Z * Z)
         (s : App) : Outcome (App * list Obs) :=
  if depsEqb prev (deps s) then Ok (s, [])
  else
    match rounds with
    | O => Diverged
    | S r =>
        match timerEffect env (cleanup s) with
        | Ok (s1, o1) =>
            match settle r env (deps s) s1 with
            | Ok (s2, o2) => Ok (s2, o1 ++ o2)
            | Threw => Threw
            | Diverged => Diverged
            end
        | Threw => Threw
        | Diverged => Diverged
        end
    end.

(** What the effect does when the countdown is not at zero: nothing when no
    dependency changed, otherwise the old interval is cleared and, while
    running, a new one armed. *)
Definition rearm (s : App) : App :=
  if isActive s && (0 <? timeLeft s) then setInterval (cleanup s) else cleanup s.

(** ** Event handlers *)

Definition toggleTimer (env : Env) (s : App) : App * list Obs :=
  let s1 := setIsActive (negb (isActive s)) s in
  if negb (audioContextRef s)
  then if audioContextThrows env
       then (s1, [ConsoleLog audioContextFailed])
       else (setAudioContextRef true s1, [])
  else (s1, []).

Definition resetTimer (s : App) : App :=
  let s1 := setTimeLeft (workDuration s * 60) (setIsBreak false (setIsActive false s)) in
  cleanup s1.

Definition resetSession (s : App) : App :=
  setCompletedPomodoros 0 (resetTimer s).

(** The interval callback, [setTimeLeft(time => time - 1)]. *)
Definition onInterval (s : App) : App := setTimeLeft (timeLeft s - 1) s.

Inductive Event :=
| ClickToggle
| ClickReset
| ClickResetSession
| ClickSettings
| ChangeWorkDuration (v : Z)
| ChangeShortBreak (v : Z)
| ChangeLongBreak (v : Z)
| ChangeAlarmVolume (v : Q)
| IntervalFires (id : nat).

Definition handle (env : Env) (e : Event) (s : App) : App * list Obs :=
  match e with
  | ClickToggle => toggleTimer env s
  | ClickReset => (resetTimer s, [])
  | ClickResetSession => (resetSession s, [])
  | ClickSettings => (setShowSettings (negb (showSettings s)) s, [])
  | ChangeWorkDuration v => (setWorkDuration v s, [])
  | ChangeShortBreak v => (setShortBreakDuration v s, [])
  | ChangeLongBreak v => (setLongBreakDuration v s, [])
  | ChangeAlarmVolume v => (setAlarmVolume v s, [])
  | IntervalFires id =>
      if existsb (Nat.eqb id) (timers s) then (onInterval s, []) else (s, [])
  end.

(** Renders that a chain of effects may need before the dependencies are
    stable; see [settle_more_rounds]. *)
Definition renderRounds : nat := 8.

(** One event: its handler, then the effects. *)
Definition step (env : Env) (e : Event) (s : App) : Outcome (App * list Obs) :=
  let '(s1, o1) := handle env e s in
  match settle renderRounds env (deps s) s1 with
  | Ok (s2, o2) => Ok (s2, o1 ++ o2)
  | Threw => Threw
  | Diverged => Diverged
  end.

(** The range inputs of the settings panel only produce values between
    their [min] and [max]. *)
Definition isConfigEdit (e : Event) : bool :=
  match e with
  | ChangeWorkDuration _ | ChangeShortBreak _ | ChangeLongBreak _
  | ChangeAlarmVolume _ => true
  | _ => false
  end.

Definition validEvent (e : Event) : bool :=
  match e with
  | ChangeWorkDuration v => (15 <=? v) && (v <=? 60)
  | ChangeShortBreak v => (3 <=? v) && (v <=? 15)
  | ChangeLongBreak v => (15 <=? v) && (v <=? 45)
  | ChangeAlarmVolume v => Qle_bool 0 v && Qle_bool v 1
  | _ => true
  end.

Definition userAction (e : Event) : bool := validEvent e && negb (isConfigEdit e).

(** States the component can be in after events drawn from [allowed],
    starting at [s0]. *)
Inductive reachableFrom (allowed : Event -> bool) (s0 : App) : App -> Prop :=
| reach_start : reachableFrom allowed s0 s0
| reach_step : forall env e s s' o,
    reachableFrom allowed s0 s ->
    allowed e = true ->
    step env e s = Ok (s', o) ->
    reachableFrom allowed s0 s'.

Definition reachable : App -> Prop := reachableFrom validEvent initial.

(** ** Derived display values *)

Definition totalDuration (s : App) : Z :=
  if isBreak s
  then (if (0 <? completedPomodoros s) && (Z.rem (completedPomodoros s) 4 =? 0)
        then longBreakDuration s else shortBreakDuration s) * 60
  else workDuration s * 60.

Definition progress (s : App) : Q :=
  ((inject_Z (totalDuration s - timeLeft s) / inject_Z (totalDuration s)) * 100)%Q.

(** [isLongBreak] as the effect computes it from the state in which the focus
    phase ends, and as the render computes it for [totalDuration]. *)
Definition isLongBreakAtCompletion (s : App) : bool :=
  Z.rem (completedPomodoros s + 1) 4 =? 0.

Definition isLongBreakAtDisplay (s : App) : bool :=
  (0 <? completedPomodoros s) && (Z.rem (completedPomodoros s) 4 =? 0).

(** The ratio as the specification words it: the elapsed share of the phase,
    clamped to the unit interval. *)
Definition clamp01 (q : Q) : Q :=
  if Qle_bool q 0 then 0%Q else if Qle_bool 1 q then 1%Q else q.

Definition progressRatioSpec (s : App) : Q :=
  clamp01 (inject_Z (totalDuration s - timeLeft s) / inject_Z (totalDuration s))%Q.

(** The ratio the component computes: its percentage over 100. *)
Definition progressRatio (s : App) : Q := (progress s / 100)%Q.

(** ** Invariant of the component *)

Definition validConfig (s : App) : Prop :=
  15 <= workDuration s <= 60 /\ 3 <= shortBreakDuration s <= 15
  /\ 15 <= longBreakDuration s <= 45.

Definition positiveDurations (s : App) : Prop :=
  0 < workDuration s /\ 0 < shortBreakDuration s /\ 0 < longBreakDuration s.

Definition stateOK (s : App) : Prop :=
  0 < timeLeft s /\ 0 <= completedPomodoros s /\ validConfig s
  /\ (isBreak s = true -> 0 < completedPomodoros s).

(** The only interval that can be armed is the one the ref holds, and it is
    armed exactly while the timer runs. *)
Definition armedOK (s : App) : Prop :=
  match isActive s, intervalRef s with
  | true, Some id => timers s = [id]
  | true, None => False
  | false, _ => timers s = []
  end.

Definition timersOwned (s : App) : Prop :=
  match intervalRef s with
  | Some id => forall j, In j (timers s) -> j = id
  | None => timers s = []
  end.

Definition Inv (s : App) : Prop := stateOK s /\ armedOK s.

(** ** What an event does to the rendered state *)

(** The spec's TimerState: the four cells the countdown lives in. *)
Definition timerState (s : App) : Z * bool * bool * Z :=
  (timeLeft s, isActive s, isBreak s, completedPomodoros s).

Definition durations (s : App) : Z * Z * Z :=
  (workDuration s, shortBreakDuration s, longBreakDuration s).

(** The tick that ends a phase: the armed interval fires at one second left. *)
Definition isLastTick (e : Event) (s : App) : bool :=
  match e with
  | IntervalFires id => existsb (Nat.eqb id) (timers s) && (timeLeft s =? 1)
  | _ => false
  end.

(** The rendered state once the event and the effects it causes are done. *)
Definition after (env : Env) (e : Event) (s : App) : App :=
  if isLastTick e s then phaseComplete (onInterval s) else fst (handle env e s).

(** A break in progress: events from [allowed] that leave the component in
    the break that began in [s0]. *)
Inductive breakRun (allowed : Event -> bool) (s0 : App) : App -> Prop :=
| break_begin : breakRun allowed s0 s0
| break_step : forall env e s s' o,
    breakRun allowed s0 s ->
    allowed e = true ->
    step env e s = Ok (s', o) ->
    isBreak s' = true ->
    breakRun allowed s0 s'.

(** ** Ticks and scenarios *)

(** One elapsed second: the armed interval, if there is one, fires. *)
Definition tick (env : Env) (s : App) : Outcome (App * list Obs) :=
  match timers s with
  | id :: _ => step env (IntervalFires id) s
  | [] => Ok (s, [])
  end.

Definition andThen (r : Outcome (App * list Obs))
           (k : App -> Outcome (App * list Obs)) : Outcome (App * list Obs) :=
  match r with
  | Ok (s, o) =>
      match k s with
      | Ok (s', o') => Ok (s', o ++ o')
      | Threw => Threw
      | Diverged => Diverged
      end
  | Threw => Threw
  | Diverged => Diverged
  end.

Fixpoint ticks (env : Env) (n : nat) (s : App) : Outcome (App * list Obs) :=
  match n with
  | O => Ok (s, [])
  | S k => andThen (tick env s) (ticks env k)
  end.

(** Press start and let a whole phase of [n] seconds elapse. *)
Definition startAndWait (env : Env) (n : nat) (s : App) : Outcome (App * list Obs) :=
  andThen (step env ClickToggle s) (ticks env n).

(** A focus phase followed by its break, with the default durations. *)
Definition focusAndShortBreak (env : Env) (s : App) : Outcome (App * list Obs) :=
  andThen (startAndWait env 1500 s) (startAndWait env 300).

(** Environments used in examples. *)
Definition envOk : Env := {|
  audioContextThrows := false; oscillatorThrows := false;
  notificationInWindow := true; permission := granted;
  notificationThrows := false |}.

Definition envNoAudioDenied : Env := {|
  audioContextThrows := true; oscillatorThrows := true;
  notificationInWindow := true; permission := denied;
  notificationThrows := false |}.

Definition envNotificationBroken : Env := {|
  audioContextThrows := false; oscillatorThrows := false;
  notificationInWindow := true; permission := granted;
  notificationThrows := true |}.

(** The first focus phase, running, one second before its end. *)
Definition lastSecond : App := {|
  timeLeft := 1; isActive := true; isBreak := false; completedPomodoros := 0;
  showSettings := false; workDuration := 25; shortBreakDuration := 5;
  longBreakDuration := 15; alarmVolume := 5 # 10; intervalRef := Some 1500%nat;
  audioContextRef := true; timers := [1500%nat]; nextTimer := 1501 |}.

(** The render in which the countdown shows zero. *)
Definition atZero : App := {|
  timeLeft := 0; isActive := true; isBreak := false; completedPomodoros := 0;
  showSettings := false; workDuration := 25; shortBreakDuration := 5;
  longBreakDuration := 15; alarmVolume := 5 # 10; intervalRef := Some 1500%nat;
  audioContextRef := true; timers := []; nextTimer := 1501 |}.

(** Running, right after the first press of start. *)
Definition running : App := {|
  timeLeft := 1500; isActive := true; isBreak := false; completedPomodoros := 0;
  showSettings := false; workDuration := 25; shortBreakDuration := 5;
  longBreakDuration := 15; alarmVolume := 5 # 10; intervalRef := Some 1%nat;
  audioContextRef := true; timers := [1%nat]; nextTimer := 2 |}.

(** The work duration moved to 15 minutes before the first start. *)
Definition shortened : App := setWorkDuration 15 initial.

(** Four focus phases with the default durations, the first three each
    followed by its short break. *)
Definition fourFocusPhases : Outcome (App * list Obs) :=
  andThen (andThen (andThen (focusAndShortBreak envOk initial)
                            (focusAndShortBreak envOk))
                   (focusAndShortBreak envOk))
          (startAndWait envOk 1500).

(** ** Clock face and labels *)

Definition digitChar (d : Z) : Ascii.ascii := Ascii.ascii_of_nat (48 + Z.to_nat d).

(** The decimal digits of a natural number, most significant first; one more
    round than the number itself always reaches the leading digit. *)
Fixpoint digitsOf (rounds : nat) (n : Z) (acc : string) : string :=
  match rounds with
  | O => acc
  | S r =>
      let acc' := String (digitChar (n mod 10)) acc in
      if n <? 10 then acc' else digitsOf r (n / 10) acc'
  end.

(** [toString] on an integer-valued number. *)
Definition numberToString (n : Z) : string :=
  if n <? 0
  then String "-"%char (digitsOf (S (Z.to_nat (- n))) (- n) EmptyString)
  else digitsOf (S (Z.to_nat n)) n EmptyString.

Fixpoint repeatChar (c : Ascii.ascii) (k : nat) : string :=
  match k with
  | O => EmptyString
  | S j => String c (repeatChar c j)
  end.

(** [padStart] with a one-character filler: it never shortens. *)
Definition padStart (target : nat) (c : Ascii.ascii) (s : string) : string :=
  (repeatChar c (target - String.length s) ++ s)%string.

(** [formatTime]: [Math.floor(seconds / 60)] is the floor division of [Z],
    [seconds % 60] the remainder. *)
Definition formatTime (seconds : Z) : string :=
  let mins := seconds / 60 in
  let secs := Z.rem seconds 60 in
  (padStart 2 "0"%char (numberToString mins) ++ ":"
   ++ padStart 2 "0"%char (numberToString secs))%string.

(** The text after [Next:] in the session info. *)
Definition nextLabel (s : App) : string :=
  if isBreak s then "Focus"%string
  else if Z.rem (completedPomodoros s + 1) 4 =? 0 then "Long Break"%string
       else "Short Break"%string.

(** The volume label, [Math.round(alarmVolume * 100)]. *)
Definition volumePercent (s : App) : Z :=
  Qfloor (alarmVolume s * 100 + (1 # 2))%Q.

(** The notifications and tones in a trace. *)
Definition isNotification (o : Obs) : bool :=
  match o with Notification _ _ => true | _ => false end.

Definition isBeep (o : Obs) : bool :=
  match o with Beep _ => true | _ => false end.

(** An edit of a duration that moves it to another value. *)
Definition durationChanged (e : Event) (s : App) : Prop :=
  match e with
  | ChangeWorkDuration v => v <> workDuration s
  | ChangeShortBreak v => v <> shortBreakDuration s
  | ChangeLongBreak v => v <> longBreakDuration s
  | _ => False
  end.


(** * Proofs *)

(** ** Basic facts about the effect loop *)

Lemma depsEqb_true d e : depsEqb d e = true <-> d = e.
Proof.
  destruct d as [[[[[[a1 t1] b1] w1] s1] l1] c1].
  destruct e as [[[[[[a2 t2] b2] w2] s2] l2] c2].
  unfold depsEqb.
  rewrite !andb_true_iff, !Z.eqb_eq, !Bool.eqb_true_iff.
  split.
  - intros [[[[[[-> ->] ->] ->] ->] ->] ->]. reflexivity.
  - intros H. inversion H. repeat split.
Qed.

Lemma depsEqb_refl d : depsEqb d d = true.
Proof. apply depsEqb_true. reflexivity. Qed.

Lemma depsEqb_false d e : d <> e -> depsEqb d e = false.
Proof.
  intros H. destruct (depsEqb d e) eqn:E; [|reflexivity].
  apply depsEqb_true in E. contradiction.
Qed.

Lemma settle_stable r env d s :
  depsEqb d (deps s) = true -> settle r env d s = Ok (s, []).
Proof. intros H. destruct r; simpl; rewrite H; reflexivity. Qed.

Lemma settle_round r env d s :
  depsEqb d (deps s) = false ->
  settle (S r) env d s =
  match timerEffect env (cleanup s) with
  | Ok (s1, o1) =>
      match settle r env (deps s) s1 with
      | Ok (s2, o2) => Ok (s2, o1 ++ o2)
      | Threw => Threw
      | Diverged => Diverged
      end
  | Threw => Threw
  | Diverged => Diverged
  end.
Proof. intros H. simpl. rewrite H. reflexivity. Qed.

(** A result obtained within some number of renders is the result for any
    larger number: the bound [renderRounds] only cuts off endless chains. *)
Lemma settle_more_rounds r env d s res :
  settle r env d s = Ok res -> forall k, settle (r + k) env d s = Ok res.
Proof.
  revert d s res. induction r as [|r IH]; intros d s res H k.
  - simpl in H. destruct (depsEqb d (deps s)) eqn:E; [|discriminate].
    rewrite settle_stable by exact E. exact H.
  - destruct (depsEqb d (deps s)) eqn:E.
    + rewrite settle_stable in H by exact E.
      rewrite settle_stable by exact E. exact H.
    + rewrite settle_round in H by exact E.
      change (S r + k)%nat with (S (r + k)).
      rewrite settle_round by exact E.
      destruct (timerEffect env (cleanup s)) as [[s1 o1]| |]; try discriminate.
      destruct (settle r env (deps s) s1) as [[s2 o2]| |] eqn:E2; try discriminate.
      rewrite (IH _ _ _ E2 k). exact H.
Qed.

Lemma deps_cleanup s : deps (cleanup s) = deps s.
Proof. destruct s as [t a b c g w sb lb av [id|] ac tm nt]; reflexivity. Qed.

Lemma deps_setInterval s : deps (setInterval s) = deps s.
Proof. destruct s; reflexivity. Qed.

Lemma filter_idem {A} (f : A -> bool) (l : list A) :
  filter f (filter f l) = filter f l.
Proof.
  induction l as [|x l IH]; simpl; [reflexivity|].
  destruct (f x) eqn:E; simpl; rewrite ?E, IH; reflexivity.
Qed.

Lemma cleanup_idem s : cleanup (cleanup s) = cleanup s.
Proof.
  destruct s as [t a b c g w sb lb av [id|] ac tm nt]; [|reflexivity].
  unfold cleanup; simpl. rewrite filter_idem. reflexivity.
Qed.

Lemma settle_quiet r env d s :
  timeLeft s <> 0 ->
  settle (S r) env d s = Ok ((if depsEqb d (deps s) then s else rearm s), []).
Proof.
  intros Ht. destruct (depsEqb d (deps s)) eqn:E.
  - apply settle_stable. exact E.
  - rewrite settle_round by exact E. unfold timerEffect, rearm.
    assert (Ea : isActive (cleanup s) = isActive s)
      by (generalize (deps_cleanup s); unfold deps; congruence).
    assert (Et : timeLeft (cleanup s) = timeLeft s)
      by (generalize (deps_cleanup s); unfold deps; congruence).
    rewrite Ea, Et.
    destruct (isActive s && (0 <? timeLeft s)).
    + rewrite settle_stable; [reflexivity|].
      rewrite deps_setInterval, deps_cleanup. apply depsEqb_refl.
    + apply Z.eqb_neq in Ht. rewrite Ht.
      rewrite settle_stable; [reflexivity|].
      rewrite deps_cleanup. apply depsEqb_refl.
Qed.

(** ** The alarm returns or throws *)

Lemma playBeep_shape env s :
  fst (playBeep env s) = setAudioContextRef (audioContextRef (fst (playBeep env s))) s.
Proof.
  destruct s as [t a b c g w sb lb av ir ac tm nt]. unfold playBeep. simpl.
  destruct ac, (audioContextThrows env), (oscillatorThrows env); reflexivity.
Qed.

Lemma playAlarm_shape env s s2 o :
  playAlarm env s = Ok (s2, o) -> s2 = setAudioContextRef (audioContextRef s2) s.
Proof.
  unfold playAlarm. generalize (playBeep_shape env s).
  destruct (playBeep env s) as [s1 o1]. simpl. intros Hs H.
  destruct (notificationInWindow env && isGranted (permission env));
    [destruct (notificationThrows env); [discriminate|]|];
    inversion H; subst; exact Hs.
Qed.

Lemma playAlarm_returns env s :
  alarmReturns env = true -> exists s2 o, playAlarm env s = Ok (s2, o).
Proof.
  unfold alarmReturns, playAlarm. intros H.
  destruct (playBeep env s) as [s1 o1].
  destruct (notificationInWindow env && isGranted (permission env)); simpl in H.
  - apply negb_true_iff in H. rewrite H. eauto.
  - eauto.
Qed.

Lemma playAlarm_throws env s :
  alarmReturns env = false -> playAlarm env s = Threw.
Proof.
  unfold alarmReturns, playAlarm. intros H. apply negb_false_iff in H.
  apply andb_true_iff in H. destruct H as [H1 H2]. rewrite H1, H2.
  destruct (playBeep env s). reflexivity.
Qed.

(** ** The effect at zero *)

Lemma validConfig_positive s : validConfig s -> positiveDurations s.
Proof. unfold validConfig, positiveDurations. lia. Qed.

Lemma phaseComplete_timeLeft_pos s :
  positiveDurations s -> 0 < timeLeft (phaseComplete s).
Proof.
  destruct s as [t a b c g w sb lb av ir ac tm nt].
  unfold positiveDurations, phaseComplete; simpl. intros (Hw & Hs & Hl).
  destruct b; simpl; [lia|].
  destruct (Z.rem (c + 1) 4 =? 0); simpl; lia.
Qed.

Lemma phaseComplete_isActive s : isActive (phaseComplete s) = false.
Proof.
  destruct s as [t a b c g w sb lb av ir ac tm nt].
  unfold phaseComplete; simpl. destruct b; reflexivity.
Qed.

Lemma positiveDurations_audio v s :
  positiveDurations (setAudioContextRef v s) <-> positiveDurations s.
Proof. destruct s; reflexivity. Qed.

Lemma positiveDurations_cleanup s :
  positiveDurations (cleanup s) <-> positiveDurations s.
Proof. destruct s as [t a b c g w sb lb av [id|] ac tm nt]; reflexivity. Qed.

Lemma timeLeft_cleanup s : timeLeft (cleanup s) = timeLeft s.
Proof. destruct s as [t a b c g w sb lb av [id|] ac tm nt]; reflexivity. Qed.

Lemma isActive_cleanup s : isActive (cleanup s) = isActive s.
Proof. destruct s as [t a b c g w sb lb av [id|] ac tm nt]; reflexivity. Qed.

(** At zero the effect delivers the alarm and completes the phase; the render
    that follows finds the timer stopped with a positive countdown and only
    runs the cleanup. *)
Lemma settle_finish r env d s :
  timeLeft s = 0 ->
  depsEqb d (deps s) = false ->
  positiveDurations s ->
  settle (S (S r)) env d s =
  match playAlarm env (cleanup s) with
  | Ok (s2, o) => Ok (cleanup (phaseComplete s2), TimerFinished :: o)
  | Threw => Threw
  | Diverged => Diverged
  end.
Proof.
  intros Ht Hd Hp. rewrite settle_round by exact Hd.
  unfold timerEffect. rewrite timeLeft_cleanup, Ht, andb_false_r. simpl (0 =? 0).
  cbv iota.
  destruct (playAlarm env (cleanup s)) as [[s2 o]| |] eqn:Ea; try reflexivity.
  pose proof (playAlarm_shape _ _ _ _ Ea) as Hs.
  assert (Hp2 : positiveDurations s2).
  { rewrite Hs. apply positiveDurations_audio, positiveDurations_cleanup, Hp. }
  pose proof (phaseComplete_timeLeft_pos _ Hp2) as Hpos.
  rewrite settle_quiet by lia.
  rewrite depsEqb_false.
  - unfold rearm. rewrite phaseComplete_isActive. simpl.
    rewrite app_nil_r. reflexivity.
  - unfold deps. intros E. inversion E. lia.
Qed.

(** ** The invariant holds initially and after re-arming *)

Lemma armedOK_owned s : armedOK s -> timersOwned s.
Proof.
  destruct s as [t a b c g w sb lb av [id|] ac tm nt];
    unfold armedOK, timersOwned; simpl; destruct a; intros H; subst; simpl;
    try tauto; try reflexivity.
  intros j [E|[]]. symmetry. exact E.
Qed.

Lemma filter_owned id tm :
  (forall j, In j tm -> j = id) -> filter (fun j => negb (Nat.eqb j id)) tm = [].
Proof.
  induction tm as [|x tm IH]; intros H; simpl; [reflexivity|].
  rewrite (H x (or_introl eq_refl)), Nat.eqb_refl. simpl.
  apply IH. intros j Hj. apply H. right. exact Hj.
Qed.

Lemma cleanup_timers s : timersOwned s -> timers (cleanup s) = [].
Proof.
  destruct s as [t a b c g w sb lb av [id|] ac tm nt];
    unfold timersOwned, cleanup; simpl; intros H; [|exact H].
  apply filter_owned. exact H.
Qed.

Lemma stateOK_cleanup s : stateOK (cleanup s) <-> stateOK s.
Proof. destruct s as [t a b c g w sb lb av [id|] ac tm nt]; reflexivity. Qed.

Lemma rearm_Inv s : stateOK s -> timersOwned s -> Inv (rearm s).
Proof.
  intros Hs Ho. pose proof (cleanup_timers s Ho) as Hc.
  apply stateOK_cleanup in Hs. unfold rearm.
  rewrite <- (isActive_cleanup s), <- (timeLeft_cleanup s).
  destruct (cleanup s) as [t a b c g w sb lb av ir ac tm nt]. simpl in *. subst tm.
  assert (Ht : (0 <? t) = true) by (apply Z.ltb_lt; apply Hs).
  rewrite Ht, andb_true_r.
  destruct a; split; try exact Hs; unfold armedOK; simpl; reflexivity.
Qed.

Lemma Inv_initial : Inv initial.
Proof.
  unfold Inv, stateOK, validConfig, armedOK; simpl.
  repeat split; try lia; try discriminate.
Qed.

(** ** One step, event by event *)

Lemma step_toggle env s :
  timeLeft s <> 0 ->
  step env ClickToggle s =
  Ok (rearm (fst (toggleTimer env s)), snd (toggleTimer env s)).
Proof.
  intros Ht. unfold step. simpl handle.
  destruct (toggleTimer env s) as [s1 o1] eqn:E. cbn [fst snd]. cbv iota.
  assert (H1 : timeLeft s1 = timeLeft s /\ isActive s1 = negb (isActive s)).
  { revert E. unfold toggleTimer.
    destruct s as [t a b c g w sb lb av ir ac tm nt]; simpl.
    destruct ac; simpl; [|destruct (audioContextThrows env)];
      intros E; inversion E; subst; split; reflexivity. }
  destruct H1 as [H1 H2].
  change renderRounds with (S 7%nat). rewrite settle_quiet by lia.
  rewrite depsEqb_false.
  - rewrite app_nil_r. reflexivity.
  - unfold deps. rewrite H2. intros E'. inversion E'.
    destruct (isActive s); discriminate.
Qed.

Lemma resetTimer_fields s :
  timeLeft (resetTimer s) = workDuration s * 60
  /\ isBreak (resetTimer s) = false
  /\ isActive (resetTimer s) = false
  /\ completedPomodoros (resetTimer s) = completedPomodoros s.
Proof.
  destruct s as [t a b c g w sb lb av [id|] ac tm nt]; repeat split.
Qed.

Lemma resetTimer_clean s : cleanup (resetTimer s) = resetTimer s.
Proof. unfold resetTimer. apply cleanup_idem. Qed.

Lemma resetSession_clean s : cleanup (resetSession s) = resetSession s.
Proof.
  unfold resetSession. generalize (resetTimer_clean s).
  destruct (resetTimer s) as [t a b c g w sb lb av [id|] ac tm nt];
    unfold cleanup; simpl; intros E; inversion E; congruence.
Qed.

Lemma step_reset env s :
  workDuration s <> 0 -> step env ClickReset s = Ok (resetTimer s, []).
Proof.
  intros Hw. unfold step. simpl handle.
  destruct (resetTimer_fields s) as (Ht & _ & Ha & _).
  change renderRounds with (S 7%nat). rewrite settle_quiet by lia.
  unfold rearm. rewrite Ha, resetTimer_clean. cbn [andb app].
  destruct (depsEqb (deps s) (deps (resetTimer s))); reflexivity.
Qed.

Lemma step_resetSession env s :
  workDuration s <> 0 -> step env ClickResetSession s = Ok (resetSession s, []).
Proof.
  intros Hw. unfold step. simpl handle.
  assert (H : timeLeft (resetSession s) = workDuration s * 60
              /\ isActive (resetSession s) = false).
  { destruct s as [t a b c g w sb lb av [id|] ac tm nt]; split; reflexivity. }
  destruct H as [Ht Ha].
  change renderRounds with (S 7%nat). rewrite settle_quiet by lia.
  unfold rearm. rewrite Ha, resetSession_clean. cbn [andb app].
  destruct (depsEqb (deps s) (deps (resetSession s))); reflexivity.
Qed.

(** An event whose handler leaves the countdown away from zero. *)
Lemma step_quiet env e s :
  timeLeft (fst (handle env e s)) <> 0 ->
  step env e s =
  Ok ((if depsEqb (deps s) (deps (fst (handle env e s)))
       then fst (handle env e s) else rearm (fst (handle env e s))),
      snd (handle env e s)).
Proof.
  intros Ht. unfold step. destruct (handle env e s) as [s1 o1]. cbn [fst snd] in *.
  cbv iota. change renderRounds with (S 7%nat). rewrite settle_quiet by exact Ht.
  rewrite app_nil_r. reflexivity.
Qed.

(** The tick that brings the countdown to zero. *)
Lemma step_last_tick env id s :
  existsb (Nat.eqb id) (timers s) = true ->
  timeLeft s = 1 ->
  positiveDurations s ->
  step env (IntervalFires id) s =
  match playAlarm env (cleanup (onInterval s)) with
  | Ok (s2, o) => Ok (cleanup (phaseComplete s2), TimerFinished :: o)
  | Threw => Threw
  | Diverged => Diverged
  end.
Proof.
  intros Hid Ht Hp. unfold step. simpl handle. rewrite Hid.
  change renderRounds with (S (S 6%nat)).
  rewrite settle_finish.
  - destruct (playAlarm env (cleanup (onInterval s))) as [[s2 o]| |]; reflexivity.
  - destruct s; simpl in *; lia.
  - apply depsEqb_false. unfold deps. intros E. inversion E.
    destruct s; simpl in *; lia.
  - destruct s; exact Hp.
Qed.

(** ** The invariant is kept by every event *)

Lemma quiet_Inv (c : bool) s : Inv s -> Inv (if c then s else rearm s).
Proof.
  intros H. destruct c; [exact H|].
  destruct H as [Hs Ha]. apply rearm_Inv; [exact Hs|apply armedOK_owned, Ha].
Qed.

Lemma toggleTimer_ok env s :
  Inv s ->
  stateOK (fst (toggleTimer env s)) /\ timersOwned (fst (toggleTimer env s)).
Proof.
  intros [Hs Ha]. apply armedOK_owned in Ha. unfold toggleTimer.
  destruct s as [t a b c g w sb lb av ir ac tm nt].
  destruct ac; simpl; [|destruct (audioContextThrows env)]; simpl;
    split; assumption.
Qed.

Lemma resetTimer_Inv s : Inv s -> Inv (resetTimer s).
Proof.
  intros [Hs Ha]. apply armedOK_owned in Ha.
  assert (Hc : timers (resetTimer s) = []).
  { unfold resetTimer. apply cleanup_timers.
    destruct s as [t a b c g w sb lb av ir ac tm nt]. exact Ha. }
  destruct (resetTimer_fields s) as (Ht & Hb & Hact & Hcnt).
  assert (Hcfg : validConfig (resetTimer s) <-> validConfig s)
    by (destruct s as [t a b c g w sb lb av [id|] ac tm nt]; reflexivity).
  destruct Hs as (H1 & H2 & H3 & H4).
  split.
  - unfold stateOK. rewrite Ht, Hb, Hcnt, Hcfg.
    unfold validConfig in *. repeat split; try lia; try discriminate.
  - unfold armedOK. rewrite Hact. exact Hc.
Qed.

Lemma resetSession_Inv s : Inv s -> Inv (resetSession s).
Proof.
  intros H. apply resetTimer_Inv in H. unfold resetSession.
  destruct (resetTimer_fields s) as (_ & Hb & _).
  destruct (resetTimer s) as [t a b c g w sb lb av ir ac tm nt].
  destruct H as [(H1 & H2 & H3 & H4) Ha].
  unfold Inv, stateOK, validConfig, armedOK in *. simpl in *. subst b.
  destruct a; repeat split; try assumption; try lia; discriminate.
Qed.

Lemma handle_config_Inv env e s :
  Inv s -> validEvent e = true ->
  match e with
  | ClickSettings | ChangeWorkDuration _ | ChangeShortBreak _
  | ChangeLongBreak _ | ChangeAlarmVolume _ => Inv (fst (handle env e s))
  | _ => True
  end.
Proof.
  intros [(H1 & H2 & H3 & H4) Ha] Hv.
  destruct s as [t a b c g w sb lb av ir ac tm nt].
  unfold validConfig in H3.
  destruct e; simpl in *; try exact I;
    try (apply andb_true_iff in Hv; destruct Hv as [Hv1 Hv2];
         apply Z.leb_le in Hv1; apply Z.leb_le in Hv2);
    (split; [unfold stateOK, validConfig; simpl; repeat split;
             try assumption; try lia
            | exact Ha]).
Qed.

Lemma armed_running id s :
  Inv s -> existsb (Nat.eqb id) (timers s) = true ->
  isActive s = true /\ intervalRef s = Some id /\ timers s = [id].
Proof.
  intros [_ Ha] He. unfold armedOK in Ha.
  destruct s as [t a b c g w sb lb av [j|] ac tm nt]; simpl in *;
    destruct a; subst; simpl in *; try discriminate; try contradiction.
  rewrite orb_false_r in He. apply Nat.eqb_eq in He. subst. repeat split.
Qed.

Lemma last_tick_Inv env s s2 o :
  Inv s -> isActive s = true -> timeLeft s = 1 ->
  playAlarm env (cleanup (onInterval s)) = Ok (s2, o) ->
  Inv (cleanup (phaseComplete s2)).
Proof.
  intros [(H1 & H2 & H3 & H4) Ha] Hact Ht Hp.
  apply playAlarm_shape in Hp. rewrite Hp. generalize (audioContextRef s2) as v.
  clear Hp. intros v. unfold armedOK in Ha. unfold validConfig in H3.
  destruct s as [t a b c g w sb lb av [j|] ac tm nt]; simpl in *; subst;
    simpl in *; subst; try contradiction.
  destruct b; unfold phaseComplete, cleanup; simpl; rewrite Nat.eqb_refl; simpl.
  - unfold Inv, stateOK, validConfig, armedOK; simpl.
    repeat split; try lia; try discriminate.
  - destruct (Z.rem (c + 1) 4 =? 0); unfold Inv, stateOK, validConfig, armedOK;
      simpl; repeat split; try lia; try discriminate.
Qed.

Lemma step_Inv env e s s' o :
  Inv s -> validEvent e = true -> step env e s = Ok (s', o) -> Inv s'.
Proof.
  intros HI Hv Hstep.
  assert (Ht : timeLeft s <> 0) by (destruct HI as [(H & _) _]; lia).
  assert (Hw : workDuration s <> 0)
    by (destruct HI as [(_ & _ & H & _) _]; unfold validConfig in H; lia).
  pose proof (handle_config_Inv env e s HI Hv) as Hcfg.
  destruct e.
  - rewrite step_toggle in Hstep by exact Ht. inversion Hstep; subst.
    destruct (toggleTimer_ok env s HI). apply rearm_Inv; assumption.
  - rewrite step_reset in Hstep by exact Hw. inversion Hstep; subst.
    apply resetTimer_Inv, HI.
  - rewrite step_resetSession in Hstep by exact Hw. inversion Hstep; subst.
    apply resetSession_Inv, HI.
  - rewrite step_quiet in Hstep by (destruct Hcfg as [(H & _) _]; lia).
    inversion Hstep; subst. apply quiet_Inv, Hcfg.
  - rewrite step_quiet in Hstep by (destruct Hcfg as [(H & _) _]; lia).
    inversion Hstep; subst. apply quiet_Inv, Hcfg.
  - rewrite step_quiet in Hstep by (destruct Hcfg as [(H & _) _]; lia).
    inversion Hstep; subst. apply quiet_Inv, Hcfg.
  - rewrite step_quiet in Hstep by (destruct Hcfg as [(H & _) _]; lia).
    inversion Hstep; subst. apply quiet_Inv, Hcfg.
  - rewrite step_quiet in Hstep by (destruct Hcfg as [(H & _) _]; lia).
    inversion Hstep; subst. apply quiet_Inv, Hcfg.
  - destruct (existsb (Nat.eqb id) (timers s)) eqn:Earm.
    + destruct (armed_running id s HI Earm) as (Hact & Hir & Htm).
      destruct (Z.eq_dec (timeLeft s) 1) as [E1|N1].
      * rewrite step_last_tick in Hstep; try assumption.
        2:{ apply validConfig_positive. apply HI. }
        destruct (playAlarm env (cleanup (onInterval s))) as [[s2 o2]| |] eqn:Ep;
          try discriminate.
        inversion Hstep; subst.
        eapply last_tick_Inv; eassumption.
      * assert (HI1 : Inv (onInterval s)).
        { destruct HI as [(H1 & H2 & H3 & H4) Ha].
          destruct s as [t a b c g w sb lb av ir ac tm nt]; simpl in *.
          split; [|exact Ha]. unfold stateOK, validConfig in *; simpl in *.
          repeat split; try assumption; lia. }
        rewrite step_quiet in Hstep.
        -- simpl handle in Hstep. rewrite Earm in Hstep. simpl fst in Hstep.
           inversion Hstep; subst. apply quiet_Inv, HI1.
        -- simpl handle. rewrite Earm. simpl fst.
           destruct HI1 as [(H & _) _]. lia.
    + rewrite step_quiet in Hstep.
      * simpl handle in Hstep. rewrite Earm in Hstep. simpl fst in Hstep.
        inversion Hstep; subst. apply quiet_Inv, HI.
      * simpl handle. rewrite Earm. simpl fst. exact Ht.
Qed.

Lemma reachableFrom_Inv allowed s0 s :
  (forall e, allowed e = true -> validEvent e = true) ->
  Inv s0 -> reachableFrom allowed s0 s -> Inv s.
Proof.
  intros Hall H0 Hr. induction Hr as [|env e s s' o Hr IH Ha Hs].
  - exact H0.
  - eapply step_Inv; [exact IH|apply Hall, Ha|exact Hs].
Qed.

Lemma reachable_Inv s : reachable s -> Inv s.
Proof.
  apply reachableFrom_Inv; [auto|apply Inv_initial].
Qed.

(** ** Steps seen through the dependencies *)

Lemma deps_views s s' :
  deps s = deps s' <-> timerState s = timerState s' /\ durations s = durations s'.
Proof.
  unfold deps, timerState, durations. split.
  - intros E. inversion E. split; reflexivity.
  - intros [E1 E2]. inversion E1. inversion E2. reflexivity.
Qed.

Lemma deps_rearm s : deps (rearm s) = deps s.
Proof.
  unfold rearm. destruct (isActive s && (0 <? timeLeft s)).
  - rewrite deps_setInterval. apply deps_cleanup.
  - apply deps_cleanup.
Qed.

Lemma deps_audio v s : deps (setAudioContextRef v s) = deps s.
Proof. destruct s; reflexivity. Qed.

Lemma phaseComplete_deps s s' : deps s = deps s' -> deps (phaseComplete s) = deps (phaseComplete s').
Proof.
  destruct s as [t a b c g w sb lb av ir ac tm nt].
  destruct s' as [t' a' b' c' g' w' sb' lb' av' ir' ac' tm' nt'].
  unfold deps; simpl. intros E. inversion E; subst.
  unfold phaseComplete; simpl. destruct b'; reflexivity.
Qed.

Lemma handle_timeLeft_pos env e s :
  Inv s -> isLastTick e s = false -> 0 < timeLeft (fst (handle env e s)).
Proof.
  intros [(H1 & H2 & H3 & H4) Ha] Hl. unfold validConfig in H3.
  destruct e; simpl in *;
    try (destruct s as [t a b c g w sb lb av [j|] ac tm nt]; simpl in *; lia).
  - unfold toggleTimer. destruct s as [t a b c g w sb lb av ir ac tm nt]; simpl in *.
    destruct ac; simpl; [|destruct (audioContextThrows env)]; simpl; exact H1.
  - destruct (existsb (Nat.eqb id) (timers s)); simpl in *; [|exact H1].
    apply Z.eqb_neq in Hl. destruct s; simpl in *; lia.
Qed.

Lemma step_deps env e s s' o :
  Inv s -> step env e s = Ok (s', o) -> deps s' = deps (after env e s).
Proof.
  intros HI Hstep. unfold after. destruct (isLastTick e s) eqn:El.
  - destruct e; simpl in El; try discriminate.
    apply andb_true_iff in El. destruct El as [Earm Et]. apply Z.eqb_eq in Et.
    rewrite step_last_tick in Hstep; try assumption.
    2:{ apply validConfig_positive, HI. }
    destruct (playAlarm env (cleanup (onInterval s))) as [[s2 o2]| |] eqn:Ep;
      try discriminate.
    inversion Hstep; subst. rewrite deps_cleanup.
    apply phaseComplete_deps. apply playAlarm_shape in Ep. rewrite Ep.
    rewrite deps_audio. apply deps_cleanup.
  - pose proof (handle_timeLeft_pos env e s HI El) as Hpos.
    rewrite step_quiet in Hstep by lia.
    destruct (depsEqb (deps s) (deps (fst (handle env e s))));
      injection Hstep as <- <-; [reflexivity|apply deps_rearm].
Qed.

Lemma step_returns env e s :
  Inv s -> isLastTick e s = false \/ alarmReturns env = true ->
  exists s' o, step env e s = Ok (s', o).
Proof.
  intros HI H. destruct (isLastTick e s) eqn:El.
  - destruct H as [H|H]; [discriminate|].
    destruct e; simpl in El; try discriminate.
    apply andb_true_iff in El. destruct El as [Earm Et]. apply Z.eqb_eq in Et.
    rewrite step_last_tick; try assumption.
    2:{ apply validConfig_positive, HI. }
    destruct (playAlarm_returns env (cleanup (onInterval s)) H) as (s2 & o & E).
    rewrite E. eauto.
  - pose proof (handle_timeLeft_pos env e s HI El) as Hpos.
    rewrite step_quiet by lia. eauto.
Qed.

(** The alarm's own output holds no [TimerFinished] marker. *)
Lemma playAlarm_no_finish env s s2 o :
  playAlarm env s = Ok (s2, o) -> finishedCount o = 0%nat.
Proof.
  unfold playAlarm, playBeep.
  destruct (negb (audioContextRef s) && audioContextThrows env);
    [|destruct (oscillatorThrows env)];
    (destruct (notificationInWindow env && isGranted (permission env));
     [destruct (notificationThrows env); [discriminate|]|]);
    intros E; inversion E; reflexivity.
Qed.

Lemma handle_no_finish env e s : finishedCount (snd (handle env e s)) = 0%nat.
Proof.
  destruct e; simpl; try reflexivity.
  - unfold toggleTimer. destruct (negb (audioContextRef s));
      [destruct (audioContextThrows env)|]; reflexivity.
  - destruct (existsb (Nat.eqb id) (timers s)); reflexivity.
Qed.

(** The number of phase completions an event causes: one for the last tick,
    none otherwise. *)
Lemma step_finished env e s s' o :
  Inv s -> step env e s = Ok (s', o) ->
  finishedCount o = if isLastTick e s then 1%nat else 0%nat.
Proof.
  intros HI Hstep. destruct (isLastTick e s) eqn:El.
  - destruct e; simpl in El; try discriminate.
    apply andb_true_iff in El. destruct El as [Earm Et]. apply Z.eqb_eq in Et.
    rewrite step_last_tick in Hstep; try assumption.
    2:{ apply validConfig_positive, HI. }
    destruct (playAlarm env (cleanup (onInterval s))) as [[s2 o2]| |] eqn:Ep;
      try discriminate.
    inversion Hstep; subst. simpl. f_equal. eapply playAlarm_no_finish, Ep.
  - pose proof (handle_timeLeft_pos env e s HI El) as Hpos.
    rewrite step_quiet in Hstep by lia. injection Hstep as <- <-.
    apply handle_no_finish.
Qed.

(** ** The example states are reachable *)

Lemma running_reachable : reachable running.
Proof.
  apply (reach_step validEvent initial envOk ClickToggle initial running []).
  - apply reach_start.
  - reflexivity.
  - reflexivity.
Qed.

Lemma tick_reachable env s s' o :
  reachable s -> tick env s = Ok (s', o) -> reachable s'.
Proof.
  intros Hr Ht. unfold tick in Ht. destruct (timers s) as [|id tl].
  - injection Ht as <- <-. exact Hr.
  - exact (reach_step validEvent initial env (IntervalFires id) s s' o Hr eq_refl Ht).
Qed.

Lemma ticks_reachable env n : forall s s' o,
  reachable s -> ticks env n s = Ok (s', o) -> reachable s'.
Proof.
  induction n as [|n IH]; intros s s' o Hr Ht; simpl in Ht.
  - injection Ht as <- <-. exact Hr.
  - unfold andThen in Ht.
    destruct (tick env s) as [[s1 o1]| |] eqn:E1; try discriminate.
    destruct (ticks env n s1) as [[s2 o2]| |] eqn:E2; try discriminate.
    injection Ht as <- <-.
    eapply IH; [|exact E2]. eapply tick_reachable; eassumption.
Qed.

Lemma lastSecond_reachable : reachable lastSecond.
Proof.
  apply (ticks_reachable envOk 1499%nat running lastSecond []);
    [apply running_reachable|].
  vm_compute. reflexivity.
Qed.

Lemma shortened_reachable : reachable shortened.
Proof.
  apply (reach_step validEvent initial envOk (ChangeWorkDuration 15) initial shortened []).
  - apply reach_start.
  - reflexivity.
  - reflexivity.
Qed.

(** ** Phase completion *)

Lemma rem4_divide n : (Z.rem n 4 =? 0) = true <-> (4 | n).
Proof. rewrite Z.eqb_eq. apply Z.rem_divide. discriminate. Qed.

Lemma phaseComplete_focus s :
  isBreak s = false ->
  timerState (phaseComplete s) =
  ((if Z.rem (completedPomodoros s + 1) 4 =? 0
    then longBreakDuration s * 60 else shortBreakDuration s * 60),
   false, true, completedPomodoros s + 1)
  /\ durations (phaseComplete s) = durations s.
Proof.
  destruct s as [t a b c g w sb lb av ir ac tm nt]; simpl. intros ->.
  split; reflexivity.
Qed.

Lemma phaseComplete_break s :
  isBreak s = true ->
  timerState (phaseComplete s) =
  (workDuration s * 60, false, false, completedPomodoros s)
  /\ durations (phaseComplete s) = durations s.
Proof.
  destruct s as [t a b c g w sb lb av ir ac tm nt]; simpl. intros ->.
  split; reflexivity.
Qed.

(** C1. At [timeLeft = 0] the effect delivers the alarm and completes the
    phase, once.  After a focus phase the counter is one higher, the break
    begins with the long duration when the new counter is divisible by 4 and
    with the short one otherwise; after a break the counter is untouched and
    the focus duration is loaded.  Either way the timer is stopped. *)
Theorem phase_completion env s :
  timeLeft s = 0 ->
  alarmReturns env = true ->
  exists s' o,
    timerEffect env s = Ok (s', o) /\ finishedCount o = 1%nat
    /\ isActive s' = false
    /\ (isBreak s = false ->
        completedPomodoros s' = completedPomodoros s + 1
        /\ isBreak s' = true
        /\ ((4 | completedPomodoros s + 1) ->
            timeLeft s' = longBreakDuration s * 60)
        /\ (~ (4 | completedPomodoros s + 1) ->
            timeLeft s' = shortBreakDuration s * 60))
    /\ (isBreak s = true ->
        completedPomodoros s' = completedPomodoros s
        /\ isBreak s' = false
        /\ timeLeft s' = workDuration s * 60).
Proof.
  intros Ht Hal. unfold timerEffect. rewrite Ht, andb_false_r. simpl (0 =? 0).
  cbv iota.
  destruct (playAlarm_returns env s Hal) as (s1 & o & Ep). rewrite Ep.
  exists (phaseComplete s1), (TimerFinished :: o).
  pose proof (playAlarm_no_finish _ _ _ _ Ep) as Hn.
  apply playAlarm_shape in Ep.
  assert (Hd : deps (phaseComplete s1) = deps (phaseComplete s)).
  { apply phaseComplete_deps. rewrite Ep. apply deps_audio. }
  apply deps_views in Hd. destruct Hd as [Hts _].
  split; [reflexivity|]. split; [simpl; rewrite Hn; reflexivity|].
  split; [apply phaseComplete_isActive|]. split.
  - intros Hb. destruct (phaseComplete_focus s Hb) as [Hf _].
    rewrite Hf in Hts. unfold timerState in Hts. injection Hts as H1 H2 H3 H4.
    rewrite H1, H3, H4. repeat split.
    + intros Hdiv. apply rem4_divide in Hdiv. rewrite Hdiv. reflexivity.
    + intros Hnd. destruct (Z.rem (completedPomodoros s + 1) 4 =? 0) eqn:E;
        [|reflexivity].
      apply rem4_divide in E. contradiction.
  - intros Hb. destruct (phaseComplete_break s Hb) as [Hf _].
    rewrite Hf in Hts. unfold timerState in Hts. injection Hts as H1 H2 H3 H4.
    rewrite H1, H3, H4. repeat split.
Qed.

Lemma phase_completion_witness :
  timeLeft atZero = 0 /\ alarmReturns envOk = true
  /\ exists s' o, timerEffect envOk atZero = Ok (s', o)
                  /\ finishedCount o = 1%nat /\ isActive s' = false.
Proof.
  split; [reflexivity|]. split; [reflexivity|].
  destruct (phase_completion envOk atZero eq_refl eq_refl)
    as (s' & o & H1 & H2 & H3 & _).
  exists s', o. repeat split; assumption.
Defined.

(** The last tick of a phase, seen from a state the component can be in. *)
Lemma last_tick_step env id s :
  Inv s ->
  existsb (Nat.eqb id) (timers s) = true ->
  timeLeft s = 1 ->
  alarmReturns env = true ->
  exists s' o,
    step env (IntervalFires id) s = Ok (s', o)
    /\ finishedCount o = 1%nat
    /\ deps s' = deps (phaseComplete (onInterval s)).
Proof.
  intros HI Harm Ht Hal.
  assert (El : isLastTick (IntervalFires id) s = true).
  { simpl. rewrite Harm, Ht. reflexivity. }
  destruct (step_returns env (IntervalFires id) s HI (or_intror Hal)) as (s' & o & E).
  exists s', o. split; [exact E|]. split.
  - rewrite (step_finished _ _ _ _ _ HI E), El. reflexivity.
  - rewrite (step_deps _ _ _ _ _ HI E). unfold after. rewrite El. reflexivity.
Qed.

(** C2. The break that follows a completed focus session starts with the long
    duration exactly when the number of completed sessions is then a multiple
    of 4, and with the short duration otherwise.  With the default durations
    the fourth completed focus phase leaves 900 seconds and a counter of 4. *)
Theorem long_break_every_fourth :
  (forall env id s,
      reachable s ->
      isBreak s = false ->
      timeLeft s = 1 ->
      existsb (Nat.eqb id) (timers s) = true ->
      alarmReturns env = true ->
      exists s' o,
        step env (IntervalFires id) s = Ok (s', o)
        /\ isBreak s' = true
        /\ completedPomodoros s' = completedPomodoros s + 1
        /\ ((4 | completedPomodoros s') -> timeLeft s' = longBreakDuration s' * 60)
        /\ (~ (4 | completedPomodoros s') -> timeLeft s' = shortBreakDuration s' * 60))
  /\ (exists s o,
         fourFocusPhases = Ok (s, o)
         /\ timeLeft s = 900 /\ completedPomodoros s = 4
         /\ isBreak s = true /\ isActive s = false).
Proof.
  split.
  - intros env id s Hr Hb Ht Harm Hal. apply reachable_Inv in Hr.
    destruct (last_tick_step env id s Hr Harm Ht Hal) as (s' & o & E & _ & Hd).
    exists s', o. split; [exact E|].
    apply deps_views in Hd. destruct Hd as [Hts Hdur].
    assert (Hb1 : isBreak (onInterval s) = false) by (destruct s; exact Hb).
    destruct (phaseComplete_focus _ Hb1) as [Hf Hg].
    rewrite Hf in Hts. rewrite Hg in Hdur.
    unfold timerState in Hts. injection Hts as H1 H2 H3 H4.
    unfold durations in Hdur. injection Hdur as D1 D2 D3.
    assert (Hc : completedPomodoros (onInterval s) = completedPomodoros s)
      by (destruct s; reflexivity).
    rewrite Hc in *. rewrite H1, H3, H4, D2, D3.
    replace (longBreakDuration (onInterval s)) with (longBreakDuration s)
      by (destruct s; reflexivity).
    replace (shortBreakDuration (onInterval s)) with (shortBreakDuration s)
      by (destruct s; reflexivity).
    repeat split.
    + intros Hdiv. apply rem4_divide in Hdiv. rewrite Hdiv. reflexivity.
    + intros Hnd. destruct (Z.rem (completedPomodoros s + 1) 4 =? 0) eqn:E4;
        [|reflexivity].
      apply rem4_divide in E4. contradiction.
  - vm_compute. eexists. eexists. repeat split.
Qed.

Lemma long_break_every_fourth_witness :
  reachable lastSecond /\ isBreak lastSecond = false /\ timeLeft lastSecond = 1
  /\ existsb (Nat.eqb 1500) (timers lastSecond) = true
  /\ alarmReturns envOk = true
  /\ exists s' o, step envOk (IntervalFires 1500) lastSecond = Ok (s', o)
                  /\ isBreak s' = true.
Proof.
  split; [apply lastSecond_reachable|]. repeat (split; [reflexivity|]).
  destruct (proj1 long_break_every_fourth envOk 1500%nat lastSecond
              lastSecond_reachable eq_refl eq_refl eq_refl eq_refl)
    as (s' & o & H1 & H2 & _).
  exists s', o. split; assumption.
Defined.

(** ** Counting down *)

Lemma running_armed s :
  Inv s -> isActive s = true -> exists id, timers s = [id].
Proof.
  intros [_ Ha] Hact. unfold armedOK in Ha. rewrite Hact in Ha.
  destruct (intervalRef s) as [id|]; [eauto|contradiction].
Qed.

Lemma deps_onInterval s :
  deps (onInterval s) =
  (isActive s, timeLeft s - 1, isBreak s, workDuration s, shortBreakDuration s,
   longBreakDuration s, completedPomodoros s).
Proof. destruct s; reflexivity. Qed.

(** A tick before the last second: one second less, nothing else. *)
Lemma tick_run env s :
  Inv s -> isActive s = true -> 1 < timeLeft s ->
  exists s', tick env s = Ok (s', []) /\ Inv s' /\ deps s' = deps (onInterval s).
Proof.
  intros HI Hact Ht. destruct (running_armed s HI Hact) as [id Htm].
  unfold tick. rewrite Htm.
  assert (Harm : existsb (Nat.eqb id) (timers s) = true).
  { rewrite Htm. simpl. rewrite Nat.eqb_refl. reflexivity. }
  assert (El : isLastTick (IntervalFires id) s = false).
  { simpl. rewrite Harm. simpl. apply Z.eqb_neq. lia. }
  destruct (step_returns env (IntervalFires id) s HI (or_introl El)) as (s' & o & E).
  assert (Ho : o = []).
  { pose proof (handle_timeLeft_pos env (IntervalFires id) s HI El) as Hpos.
    rewrite step_quiet in E by lia. injection E as _ <-.
    simpl. rewrite Harm. reflexivity. }
  subst o. exists s'. split; [exact E|]. split.
  - exact (step_Inv env (IntervalFires id) s s' [] HI eq_refl E).
  - rewrite (step_deps _ _ _ _ _ HI E). unfold after. rewrite El.
    simpl. rewrite Harm. reflexivity.
Qed.

(** The tick at one second left: the countdown reaches zero and the phase
    completes, once. *)
Lemma tick_last env s :
  Inv s -> isActive s = true -> timeLeft s = 1 -> alarmReturns env = true ->
  exists s' o,
    tick env s = Ok (s', o) /\ finishedCount o = 1%nat /\ Inv s'
    /\ deps s' = deps (phaseComplete (onInterval s)).
Proof.
  intros HI Hact Ht Hal. destruct (running_armed s HI Hact) as [id Htm].
  unfold tick. rewrite Htm.
  assert (Harm : existsb (Nat.eqb id) (timers s) = true).
  { rewrite Htm. simpl. rewrite Nat.eqb_refl. reflexivity. }
  destruct (last_tick_step env id s HI Harm Ht Hal) as (s' & o & E & Hn & Hd).
  pose proof (step_Inv env (IntervalFires id) s s' o HI eq_refl E) as HI'.
  exists s', o. split; [exact E|]. split; [exact Hn|]. split; [exact HI'|exact Hd].
Qed.

Lemma ticks_run env : forall (k : nat) s,
  Inv s -> isActive s = true -> Z.of_nat k < timeLeft s ->
  exists sk,
    ticks env k s = Ok (sk, []) /\ Inv sk
    /\ deps sk = (true, timeLeft s - Z.of_nat k, isBreak s, workDuration s,
                  shortBreakDuration s, longBreakDuration s, completedPomodoros s).
Proof.
  induction k as [|k IH]; intros s HI Hact Ht.
  - exists s. split; [reflexivity|]. split; [exact HI|].
    unfold deps. rewrite Hact. simpl Z.of_nat. rewrite Z.sub_0_r. reflexivity.
  - destruct (tick_run env s HI Hact) as (s1 & E1 & HI1 & Hd1); [lia|].
    rewrite deps_onInterval in Hd1. unfold deps in Hd1.
    injection Hd1 as A1 A2 A3 A4 A5 A6 A7.
    destruct (IH s1 HI1) as (sk & Ek & HIk & Hdk); [congruence|lia|].
    exists sk. split; [|split; [exact HIk|]].
    + simpl. rewrite E1. simpl. rewrite Ek. reflexivity.
    + rewrite Hdk, A2, A3, A4, A5, A6, A7.
      replace (timeLeft s - Z.of_nat (S k)) with (timeLeft s - 1 - Z.of_nat k) by lia.
      reflexivity.
Qed.

Lemma ticks_finish env : forall (n : nat) s,
  Inv s -> isActive s = true -> timeLeft s = Z.of_nat (S n) ->
  alarmReturns env = true ->
  exists s' o,
    ticks env (S n) s = Ok (s', o) /\ finishedCount o = 1%nat /\ Inv s'
    /\ isBreak s' = negb (isBreak s) /\ isActive s' = false.
Proof.
  induction n as [|n IH]; intros s HI Hact Ht Hal.
  - destruct (tick_last env s HI Hact Ht Hal) as (s' & o & E & Hn & HI' & Hd).
    exists s', o. split; [|split; [exact Hn|split; [exact HI'|]]].
    + simpl. rewrite E. simpl. rewrite app_nil_r. reflexivity.
    + apply deps_views in Hd. destruct Hd as [Hts _]. unfold timerState in Hts.
      injection Hts as _ H2 H3 _. rewrite H2, H3, phaseComplete_isActive.
      split; [|reflexivity].
      destruct s as [t a b c g w sb lb av ir ac tm nt]; simpl.
      unfold phaseComplete; simpl. destruct b; reflexivity.
  - destruct (tick_run env s HI Hact) as (s1 & E1 & HI1 & Hd1); [lia|].
    rewrite deps_onInterval in Hd1. unfold deps in Hd1.
    injection Hd1 as A1 A2 A3 A4 A5 A6 A7.
    destruct (IH s1 HI1) as (s' & o & E & Hn & HI' & Hb & Ha);
      [congruence|lia|exact Hal|].
    exists s', o. split; [|split; [exact Hn|split; [exact HI'|]]].
    + change (ticks env (S (S n)) s) with (andThen (tick env s) (ticks env (S n))).
      rewrite E1. unfold andThen. rewrite E. reflexivity.
    + rewrite Hb, A3. split; [reflexivity|exact Ha].
Qed.

(** C3. From a running state with [n > 0] seconds left, [k < n] ticks leave
    [n - k] seconds, the timer running and the phase and the counter as they
    were, with no phase completion; the [n]-th tick brings the countdown to
    zero, and after it exactly one phase completion has happened: the phase
    has flipped and the timer is stopped. *)
Theorem countdown_completes_once env (n : nat) s :
  reachable s ->
  isActive s = true ->
  timeLeft s = Z.of_nat n ->
  (0 < n)%nat ->
  alarmReturns env = true ->
  (forall k, (k < n)%nat ->
     exists sk,
       ticks env k s = Ok (sk, [])
       /\ timeLeft sk = Z.of_nat n - Z.of_nat k
       /\ isActive sk = true /\ isBreak sk = isBreak s
       /\ completedPomodoros sk = completedPomodoros s)
  /\ (exists sk,
       ticks env (n - 1) s = Ok (sk, []) /\ timeLeft (onInterval sk) = 0)
  /\ (exists s' o,
       ticks env n s = Ok (s', o) /\ finishedCount o = 1%nat
       /\ isBreak s' = negb (isBreak s) /\ isActive s' = false).
Proof.
  intros Hr Hact Ht Hn Hal. apply reachable_Inv in Hr.
  assert (Hrun : forall k, (k < n)%nat ->
     exists sk,
       ticks env k s = Ok (sk, [])
       /\ timeLeft sk = Z.of_nat n - Z.of_nat k
       /\ isActive sk = true /\ isBreak sk = isBreak s
       /\ completedPomodoros sk = completedPomodoros s).
  { intros k Hk. destruct (ticks_run env k s Hr Hact) as (sk & E & _ & Hd); [lia|].
    exists sk. split; [exact E|]. unfold deps in Hd.
    injection Hd as A1 A2 A3 A4 A5 A6 A7. rewrite A1, A2, A3, A7, Ht.
    repeat split. }
  split; [exact Hrun|]. split.
  - destruct (Hrun (n - 1)%nat) as (sk & E & Htk & _); [lia|].
    exists sk. split; [exact E|].
    destruct sk; simpl in *. lia.
  - destruct n as [|m]; [lia|].
    destruct (ticks_finish env m s Hr Hact Ht Hal) as (s' & o & E & Hf & _ & Hb & Ha).
    exists s', o. repeat split; assumption.
Qed.

Lemma countdown_completes_once_witness :
  reachable running /\ isActive running = true
  /\ timeLeft running = Z.of_nat 1500 /\ (0 < 1500)%nat
  /\ alarmReturns envNoAudioDenied = true
  /\ exists s' o, ticks envNoAudioDenied 1500 running = Ok (s', o)
                  /\ finishedCount o = 1%nat.
Proof.
  split; [apply running_reachable|]. split; [reflexivity|].
  split; [reflexivity|]. split; [apply Nat.lt_0_succ|]. split; [reflexivity|].
  destruct (countdown_completes_once envNoAudioDenied 1500 running
              running_reachable eq_refl eq_refl (Nat.lt_0_succ 1499) eq_refl)
    as (_ & _ & s' & o & E & Hf & _).
  exists s', o. split; assumption.
Defined.

(** ** Countdown against the displayed phase duration *)

Lemma totalDuration_deps s s' : deps s = deps s' -> totalDuration s = totalDuration s'.
Proof.
  unfold deps, totalDuration. intros E.
  injection E as A1 A2 A3 A4 A5 A6 A7. rewrite A3, A4, A5, A6, A7. reflexivity.
Qed.

Lemma timeLeft_deps s s' : deps s = deps s' -> timeLeft s = timeLeft s'.
Proof. unfold deps. intros E. injection E as A1 A2 A3 A4 A5 A6 A7. exact A2. Qed.

Lemma isBreak_deps s s' : deps s = deps s' -> isBreak s = isBreak s'.
Proof. unfold deps. intros E. injection E as A1 A2 A3 A4 A5 A6 A7. exact A3. Qed.

(** The two long-break tests, at completion on the new counter and at display
    on the stored counter, pick the same duration. *)
Lemma phaseComplete_total s :
  0 <= completedPomodoros s ->
  timeLeft (phaseComplete s) = totalDuration (phaseComplete s).
Proof.
  destruct s as [t a b c g w sb lb av ir ac tm nt]; simpl. intros Hc.
  unfold phaseComplete, totalDuration; simpl. destruct b; simpl; [reflexivity|].
  assert (H : (0 <? c + 1) = true) by (apply Z.ltb_lt; lia).
  rewrite H. simpl. destruct (Z.rem (c + 1) 4 =? 0); reflexivity.
Qed.

Lemma userAction_valid e : userAction e = true -> validEvent e = true.
Proof. unfold userAction. intros H. apply andb_true_iff in H. apply H. Qed.

Lemma userAction_not_edit e : userAction e = true -> isConfigEdit e = false.
Proof.
  unfold userAction. intros H. apply andb_true_iff in H.
  destruct H as [_ H]. apply negb_true_iff in H. exact H.
Qed.

Lemma after_bound env e s :
  Inv s -> timeLeft s <= totalDuration s -> isConfigEdit e = false ->
  timeLeft (after env e s) <= totalDuration (after env e s).
Proof.
  intros HI Hb He. unfold after. destruct (isLastTick e s) eqn:El.
  - rewrite phaseComplete_total; [lia|].
    destruct HI as [(_ & H2 & _) _]. destruct s; exact H2.
  - destruct e; simpl in *; try discriminate.
    + unfold toggleTimer. destruct s as [t a b c g w sb lb av ir ac tm nt]; simpl in *.
      destruct ac; simpl; [|destruct (audioContextThrows env)]; simpl; exact Hb.
    + destruct s as [t a b c g w sb lb av [j|] ac tm nt]; simpl; unfold totalDuration;
        simpl; lia.
    + destruct s as [t a b c g w sb lb av [j|] ac tm nt]; simpl; unfold totalDuration;
        simpl; lia.
    + destruct s; exact Hb.
    + destruct (existsb (Nat.eqb id) (timers s)); simpl; [|exact Hb].
      destruct s as [t a b c g w sb lb av ir ac tm nt]; unfold totalDuration in *;
        simpl in *; lia.
Qed.

Lemma step_bound env e s s' o :
  Inv s -> timeLeft s <= totalDuration s -> userAction e = true ->
  step env e s = Ok (s', o) ->
  timeLeft s' <= totalDuration s'.
Proof.
  intros HI Hb He Hstep. pose proof (step_deps _ _ _ _ _ HI Hstep) as Hd.
  rewrite (timeLeft_deps _ _ Hd), (totalDuration_deps _ _ Hd).
  apply after_bound; [exact HI|exact Hb|apply userAction_not_edit, He].
Qed.

Lemma fixed_config_bound s0 s :
  Inv s0 -> timeLeft s0 <= totalDuration s0 ->
  reachableFrom userAction s0 s ->
  Inv s /\ timeLeft s <= totalDuration s.
Proof.
  intros H0 Hb Hr. induction Hr as [|env e s s' o Hr [IHi IHb] Ha Hs].
  - split; assumption.
  - split.
    + eapply step_Inv; [exact IHi|apply userAction_valid, Ha|exact Hs].
    + eapply step_bound; eassumption.
Qed.

(** C4, as the code has it.  The countdown is never negative, whatever the
    events.  It stays within the displayed phase duration as long as the
    configuration is left alone: from any reachable state in which it is within
    the duration, start, pause, tick, reset and reset-session keep it there. *)
Theorem remaining_within_phase :
  (forall s, reachable s -> 0 <= timeLeft s)
  /\ (forall s0 s,
         reachable s0 ->
         timeLeft s0 <= totalDuration s0 ->
         reachableFrom userAction s0 s ->
         0 <= timeLeft s <= totalDuration s).
Proof.
  split.
  - intros s Hr. apply reachable_Inv in Hr. destruct Hr as [(H & _) _]. lia.
  - intros s0 s Hr Hb Hrun. apply reachable_Inv in Hr.
    destruct (fixed_config_bound s0 s Hr Hb Hrun) as [[(H & _) _] Hle]. lia.
Qed.

Lemma running_from_initial : reachableFrom userAction initial running.
Proof.
  exact (reach_step userAction initial envOk ClickToggle initial running []
           (reach_start _ _) eq_refl eq_refl).
Qed.

Lemma remaining_within_phase_witness :
  reachable initial /\ timeLeft initial <= totalDuration initial
  /\ reachableFrom userAction initial running
  /\ 0 <= timeLeft running <= totalDuration running.
Proof.
  split; [apply reach_start|]. split; [discriminate|].
  split; [apply running_from_initial|].
  apply (proj2 remaining_within_phase initial running).
  - apply reach_start.
  - discriminate.
  - apply running_from_initial.
Defined.

(** C4 as stated fails: moving the work duration to 15 minutes while 25
    minutes are on the clock leaves 1500 seconds against a phase of 900. *)
Lemma config_edit_exceeds_phase :
  reachable shortened
  /\ ~ (0 <= timeLeft shortened <= totalDuration shortened).
Proof.
  split; [apply shortened_reachable|].
  vm_compute. intros [_ H]. apply H. reflexivity.
Qed.

(** ** Progress ring *)

Lemma progress_form s p :
  totalDuration s = Z.pos p ->
  (progress s == ((Z.pos p - timeLeft s) * 100) # p)%Q.
Proof.
  intros E. unfold progress. rewrite E.
  unfold Qeq, Qdiv, Qmult, Qinv, inject_Z. simpl. lia.
Qed.

Lemma progressRatio_form s p :
  totalDuration s = Z.pos p ->
  (progressRatio s == (Z.pos p - timeLeft s) # p)%Q.
Proof.
  intros E. unfold progressRatio, progress. rewrite E.
  unfold Qeq, Qdiv, Qmult, Qinv, inject_Z. simpl. lia.
Qed.

Lemma rawRatio_form s p :
  totalDuration s = Z.pos p ->
  (inject_Z (totalDuration s - timeLeft s) / inject_Z (totalDuration s)
   == (Z.pos p - timeLeft s) # p)%Q.
Proof.
  intros E. rewrite E.
  unfold Qeq, Qdiv, Qmult, Qinv, inject_Z. simpl. lia.
Qed.

Lemma clamp01_inside q : (0 <= q)%Q -> (q <= 1)%Q -> (clamp01 q == q)%Q.
Proof.
  intros H0 H1. unfold clamp01.
  destruct (Qle_bool q 0) eqn:E0.
  - apply Qle_bool_iff in E0. apply Qle_antisym; assumption.
  - destruct (Qle_bool 1 q) eqn:E1.
    + apply Qle_bool_iff in E1. apply Qle_antisym; assumption.
    + reflexivity.
Qed.

Lemma totalDuration_pos s : validConfig s -> 0 < totalDuration s.
Proof.
  unfold validConfig, totalDuration. intros H.
  destruct (isBreak s); [|lia].
  destruct ((0 <? completedPomodoros s) && (Z.rem (completedPomodoros s) 4 =? 0)); lia.
Qed.

Lemma totalDuration_pos_form s :
  validConfig s -> exists p, totalDuration s = Z.pos p.
Proof.
  intros H. apply totalDuration_pos in H.
  destruct (totalDuration s) as [|p|p]; try lia. eauto.
Qed.

Lemma progress_zero s :
  validConfig s -> timeLeft s = totalDuration s -> (progress s == 0)%Q.
Proof.
  intros Hv Ht. destruct (totalDuration_pos_form s Hv) as [p Hp].
  rewrite (progress_form s p Hp), Ht, Hp.
  unfold Qeq; cbn [Qnum Qden]. lia.
Qed.

Lemma progress_lt s s' :
  validConfig s -> totalDuration s' = totalDuration s -> timeLeft s' < timeLeft s ->
  (progress s < progress s')%Q.
Proof.
  intros Hv Ht Hlt. destruct (totalDuration_pos_form s Hv) as [p Hp].
  rewrite (progress_form s p Hp), (progress_form s' p) by congruence.
  unfold Qlt; cbn [Qnum Qden]. nia.
Qed.

Lemma after_phase_start env e s :
  Inv s ->
  isBreak (after env e s) <> isBreak s \/ e = ClickReset \/ e = ClickResetSession ->
  timeLeft (after env e s) = totalDuration (after env e s).
Proof.
  intros HI H. unfold after in *. destruct (isLastTick e s) eqn:El.
  - apply phaseComplete_total. destruct HI as [(_ & H2 & _) _].
    destruct s; exact H2.
  - destruct e; simpl in *;
      try (destruct H as [H|[H|H]]; try discriminate; exfalso; apply H;
           destruct s; reflexivity).
    + destruct H as [H|[H|H]]; try discriminate. exfalso. apply H.
      unfold toggleTimer. destruct s as [t a b c g w sb lb av ir ac tm nt]; simpl.
      destruct ac; simpl; [|destruct (audioContextThrows env)]; reflexivity.
    + destruct s as [t a b c g w sb lb av [j|] ac tm nt]; reflexivity.
    + destruct s as [t a b c g w sb lb av [j|] ac tm nt]; reflexivity.
    + destruct H as [H|[H|H]]; try discriminate. exfalso. apply H.
      destruct (existsb (Nat.eqb id) (timers s)); destruct s; reflexivity.
Qed.

Lemma validConfig_deps s s' : deps s = deps s' -> validConfig s -> validConfig s'.
Proof.
  unfold deps, validConfig. intros E.
  injection E as A1 A2 A3 A4 A5 A6 A7. rewrite A4, A5, A6. exact (fun H => H).
Qed.

(** C5, as the code has it.  The component computes the elapsed share of the
    phase without clamping.  While the configuration is left alone the share
    lies in the unit interval, so it is the clamped ratio of the
    specification; it is 0 right after a phase starts (a phase completion, a
    reset or a session reset), grows with every tick, and is 1, shown as
    100 percent, in the render where the countdown is zero. *)
Theorem progress_of_phase :
  (forall s0 s,
      reachable s0 ->
      timeLeft s0 <= totalDuration s0 ->
      reachableFrom userAction s0 s ->
      (progressRatio s == progressRatioSpec s)%Q)
  /\ (forall env e s s' o,
         reachable s ->
         validEvent e = true ->
         step env e s = Ok (s', o) ->
         isBreak s' <> isBreak s \/ e = ClickReset \/ e = ClickResetSession ->
         (progress s' == 0)%Q)
  /\ (forall env s,
         reachable s ->
         isActive s = true ->
         1 < timeLeft s ->
         exists s', tick env s = Ok (s', []) /\ (progress s < progress s')%Q)
  /\ (forall s, reachable s -> (progress (setTimeLeft 0 s) == 100)%Q).
Proof.
  split; [|split; [|split]].
  - intros s0 s Hr Hb Hrun. apply reachable_Inv in Hr.
    destruct (fixed_config_bound s0 s Hr Hb Hrun) as [[(H1 & _ & Hv & _) _] Hle].
    destruct (totalDuration_pos_form s Hv) as [p Hp].
    unfold progressRatioSpec.
    rewrite clamp01_inside.
    + rewrite (rawRatio_form s p Hp), (progressRatio_form s p Hp). reflexivity.
    + rewrite (rawRatio_form s p Hp). unfold Qle; cbn [Qnum Qden]. lia.
    + rewrite (rawRatio_form s p Hp). unfold Qle; cbn [Qnum Qden]. lia.
  - intros env e s s' o Hr Hv Hstep Hstart. apply reachable_Inv in Hr.
    pose proof (step_deps _ _ _ _ _ Hr Hstep) as Hd.
    pose proof (step_Inv _ _ _ _ _ Hr Hv Hstep) as [(_ & _ & Hv' & _) _].
    apply progress_zero; [exact Hv'|].
    rewrite (timeLeft_deps _ _ Hd), (totalDuration_deps _ _ Hd).
    apply after_phase_start; [exact Hr|].
    rewrite <- (isBreak_deps _ _ Hd). exact Hstart.
  - intros env s Hr Hact Ht. apply reachable_Inv in Hr.
    destruct (tick_run env s Hr Hact Ht) as (s' & E & _ & Hd).
    exists s'. split; [exact E|].
    apply progress_lt.
    + apply Hr.
    + rewrite (totalDuration_deps _ _ Hd). destruct s; reflexivity.
    + rewrite (timeLeft_deps _ _ Hd). destruct s; simpl. lia.
  - intros s Hr. apply reachable_Inv in Hr. destruct Hr as [(_ & _ & Hv & _) _].
    assert (Hv0 : validConfig (setTimeLeft 0 s)) by (destruct s; exact Hv).
    destruct (totalDuration_pos_form _ Hv0) as [p Hp].
    rewrite (progress_form _ p Hp).
    replace (timeLeft (setTimeLeft 0 s)) with 0 by (destruct s; reflexivity).
    unfold Qeq; cbn [Qnum Qden]. lia.
Qed.

Lemma progress_of_phase_witness :
  reachable initial /\ timeLeft initial <= totalDuration initial
  /\ reachableFrom userAction initial running
  /\ (progressRatio running == progressRatioSpec running)%Q.
Proof.
  split; [apply reach_start|]. split; [discriminate|].
  split; [apply running_from_initial|].
  apply (proj1 progress_of_phase initial running).
  - apply reach_start.
  - discriminate.
  - apply running_from_initial.
Defined.

(** C5 as stated fails: with the work duration moved to 15 minutes while 25
    minutes are on the clock the component's ratio is -2/3, not the clamped 0. *)
Lemma progress_not_clamped :
  reachable shortened
  /\ (progressRatio shortened == (-2) # 3)%Q
  /\ (progressRatioSpec shortened == 0)%Q
  /\ ~ (progressRatio shortened == progressRatioSpec shortened)%Q.
Proof.
  split; [apply shortened_reachable|].
  split; [reflexivity|]. split; [reflexivity|].
  unfold Qeq. vm_compute. discriminate.
Qed.

(** ** Start/pause, reset, reset session *)

Lemma Inv_one_timer s :
  Inv s -> (List.length (timers s) <= 1)%nat /\ (timers s = [] <-> isActive s = false).
Proof.
  intros [_ Ha]. unfold armedOK in Ha.
  destruct (isActive s); [destruct (intervalRef s) as [id|]|];
    try contradiction; rewrite Ha; simpl; split; try lia;
    split; intros H; try reflexivity; discriminate.
Qed.

Lemma toggleTimer_deps env s :
  deps (fst (toggleTimer env s)) =
  (negb (isActive s), timeLeft s, isBreak s, workDuration s, shortBreakDuration s,
   longBreakDuration s, completedPomodoros s).
Proof.
  unfold toggleTimer. destruct s as [t a b c g w sb lb av ir ac tm nt]; simpl.
  destruct ac; simpl; [|destruct (audioContextThrows env)]; reflexivity.
Qed.

(** C6, as the code has it.  The component has one start/pause control, a
    toggle: pressed on a stopped timer it starts it, pressed on a running
    timer it pauses it; the countdown, the phase and the counter are left as
    they were.  Whatever the events, at most one interval is armed, and one
    is armed exactly while the timer runs. *)
Theorem toggle_starts_or_pauses :
  (forall env s,
      reachable s ->
      exists s' o,
        step env ClickToggle s = Ok (s', o)
        /\ isActive s' = negb (isActive s)
        /\ timeLeft s' = timeLeft s
        /\ isBreak s' = isBreak s
        /\ completedPomodoros s' = completedPomodoros s)
  /\ (forall s,
         reachable s ->
         (List.length (timers s) <= 1)%nat
         /\ (timers s = [] <-> isActive s = false)).
Proof.
  split.
  - intros env s Hr. apply reachable_Inv in Hr.
    destruct (step_returns env ClickToggle s Hr (or_introl eq_refl)) as (s' & o & E).
    exists s', o. split; [exact E|].
    pose proof (step_deps _ _ _ _ _ Hr E) as Hd.
    unfold after in Hd. simpl in Hd. rewrite toggleTimer_deps in Hd.
    unfold deps in Hd. injection Hd as A1 A2 A3 A4 A5 A6 A7.
    repeat split; assumption.
  - intros s Hr. apply Inv_one_timer, reachable_Inv, Hr.
Qed.

Lemma toggle_starts_or_pauses_witness :
  reachable running
  /\ exists s' o, step envOk ClickToggle running = Ok (s', o)
                  /\ isActive s' = negb (isActive running).
Proof.
  split; [apply running_reachable|].
  destruct (proj1 toggle_starts_or_pauses envOk running running_reachable)
    as (s' & o & E & Ha & _).
  exists s', o. split; assumption.
Defined.

(** C6 as stated fails: the control pressed while the timer runs pauses it. *)
Lemma toggle_on_running_pauses :
  reachable running /\ isActive running = true
  /\ exists s' o,
       step envOk ClickToggle running = Ok (s', o) /\ isActive s' = false.
Proof.
  split; [apply running_reachable|]. split; [reflexivity|].
  vm_compute. eexists. eexists. split; reflexivity.
Qed.

(** C7. [resetTimer] stops the timer, returns to the focus phase and loads
    the focus duration, leaving the counter; [resetSession] does the same and
    sets the counter to 0.  Pressed in the component, each leads to exactly
    that state. *)
Theorem reset_and_reset_session :
  (forall s,
      timeLeft (resetTimer s) = workDuration s * 60
      /\ isBreak (resetTimer s) = false
      /\ isActive (resetTimer s) = false
      /\ completedPomodoros (resetTimer s) = completedPomodoros s
      /\ resetSession s = setCompletedPomodoros 0 (resetTimer s)
      /\ timeLeft (resetSession s) = workDuration s * 60
      /\ isBreak (resetSession s) = false
      /\ isActive (resetSession s) = false
      /\ completedPomodoros (resetSession s) = 0)
  /\ (forall env s,
         workDuration s <> 0 ->
         step env ClickReset s = Ok (resetTimer s, [])
         /\ step env ClickResetSession s = Ok (resetSession s, [])).
Proof.
  split.
  - intros s. destruct s as [t a b c g w sb lb av [j|] ac tm nt]; repeat split.
  - intros env s Hw. split; [apply step_reset|apply step_resetSession]; exact Hw.
Qed.

Lemma reset_and_reset_session_witness :
  workDuration running <> 0
  /\ step envOk ClickReset running = Ok (resetTimer running, [])
  /\ step envOk ClickResetSession running = Ok (resetSession running, []).
Proof.
  assert (H : workDuration running <> 0) by discriminate.
  split; [exact H|].
  exact (proj2 reset_and_reset_session envOk running H).
Defined.

(** ** The two long-break tests *)

Lemma totalDuration_display s :
  totalDuration s =
  if isBreak s
  then (if isLongBreakAtDisplay s then longBreakDuration s else shortBreakDuration s) * 60
  else workDuration s * 60.
Proof. reflexivity. Qed.

Lemma after_in_break env e s :
  isBreak s = true -> isBreak (after env e s) = true ->
  completedPomodoros (after env e s) = completedPomodoros s
  /\ (isConfigEdit e = false -> durations (after env e s) = durations s).
Proof.
  intros Hb Hb'. unfold after in *. destruct (isLastTick e s).
  - exfalso. revert Hb'.
    destruct s as [t a b c g w sb lb av ir ac tm nt]; simpl in *. subst b.
    unfold phaseComplete; simpl. discriminate.
  - destruct e; simpl in *;
      try (destruct s as [t a b c g w sb lb av [j|] ac tm nt]; simpl in *;
           (split; [reflexivity|intros; try reflexivity; discriminate])).
    + unfold toggleTimer. destruct s as [t a b c g w sb lb av ir ac tm nt]; simpl.
      destruct ac; simpl; [|destruct (audioContextThrows env)]; split; reflexivity.
    + exfalso. destruct s as [t a b c g w sb lb av [j|] ac tm nt]; discriminate.
    + destruct (existsb (Nat.eqb id) (timers s)); destruct s; split; reflexivity.
Qed.

Lemma completedPomodoros_deps s s' :
  deps s = deps s' -> completedPomodoros s = completedPomodoros s'.
Proof. unfold deps. intros E. injection E as A1 A2 A3 A4 A5 A6 A7. exact A7. Qed.

Lemma durations_deps s s' : deps s = deps s' -> durations s = durations s'.
Proof. intros E. apply deps_views in E. apply E. Qed.

Lemma breakRun_keeps allowed s0 s :
  (forall e, allowed e = true -> validEvent e = true) ->
  Inv s0 -> isBreak s0 = true -> breakRun allowed s0 s ->
  Inv s /\ isBreak s = true
  /\ completedPomodoros s = completedPomodoros s0
  /\ ((forall e, allowed e = true -> isConfigEdit e = false) ->
      durations s = durations s0).
Proof.
  intros Hall H0 Hb0 Hr.
  induction Hr as [|env e s s' o Hr (IHi & IHb & IHc & IHd) Ha Hs Hb'].
  - split; [exact H0|split; [exact Hb0|split; [reflexivity|intros _; reflexivity]]].
  - pose proof (step_deps _ _ _ _ _ IHi Hs) as Hd.
    assert (Hb'' : isBreak (after env e s) = true)
      by (rewrite <- (isBreak_deps _ _ Hd); exact Hb').
    destruct (after_in_break env e s IHb Hb'') as [Hc Hdur].
    split; [eapply step_Inv; [exact IHi|apply Hall, Ha|exact Hs]|].
    split; [exact Hb'|]. split.
    + rewrite (completedPomodoros_deps _ _ Hd), Hc. exact IHc.
    + intros Hne. rewrite (durations_deps _ _ Hd), (Hdur (Hne e Ha)).
      apply IHd, Hne.
Qed.

(** C8. When a tick completes a focus phase, the break begins with exactly
    the duration the display formula yields for it: the test on the just
    incremented counter and the display test on the stored counter agree.
    They go on agreeing for every state of that break, whatever the events,
    so the display always shows the kind of break that was chosen; and while
    the configuration is left alone the displayed duration stays the duration
    the break began with. *)
Theorem long_break_tests_agree env id s s1 o :
  reachable s ->
  isBreak s = false ->
  step env (IntervalFires id) s = Ok (s1, o) ->
  isBreak s1 = true ->
  totalDuration s1 = timeLeft s1
  /\ isLongBreakAtDisplay s1 = isLongBreakAtCompletion s
  /\ (forall s2, breakRun validEvent s1 s2 ->
                 isLongBreakAtDisplay s2 = isLongBreakAtCompletion s
                 /\ totalDuration s2 =
                    (if isLongBreakAtCompletion s then longBreakDuration s2
                     else shortBreakDuration s2) * 60)
  /\ (forall s2, breakRun userAction s1 s2 -> totalDuration s2 = timeLeft s1).
Proof.
  intros Hr Hb Hstep Hb1. apply reachable_Inv in Hr.
  pose proof (step_deps _ _ _ _ _ Hr Hstep) as Hd.
  pose proof (step_Inv env (IntervalFires id) s s1 o Hr eq_refl Hstep) as HI1.
  assert (El : isLastTick (IntervalFires id) s = true).
  { destruct (isLastTick (IntervalFires id) s) eqn:El; [reflexivity|].
    exfalso. unfold after in Hd. rewrite El in Hd. apply isBreak_deps in Hd.
    rewrite Hb1 in Hd. simpl in Hd.
    destruct (existsb (Nat.eqb id) (timers s)); destruct s; simpl in *; congruence. }
  unfold after in Hd. rewrite El in Hd.
  assert (Hc : 0 <= completedPomodoros (onInterval s)).
  { destruct Hr as [(_ & H2 & _) _]. destruct s; exact H2. }
  assert (Htot : totalDuration s1 = timeLeft s1).
  { rewrite (totalDuration_deps _ _ Hd), (timeLeft_deps _ _ Hd).
    symmetry. apply phaseComplete_total, Hc. }
  assert (Hcnt : completedPomodoros s1 = completedPomodoros s + 1).
  { rewrite (completedPomodoros_deps _ _ Hd).
    destruct s as [t a b c g w sb lb av ir ac tm nt]; simpl in *. subst b.
    reflexivity. }
  assert (Hlong : forall s2, completedPomodoros s2 = completedPomodoros s1 ->
                             isLongBreakAtDisplay s2 = isLongBreakAtCompletion s).
  { intros s2 E. unfold isLongBreakAtDisplay, isLongBreakAtCompletion.
    rewrite E, Hcnt.
    assert (H : (0 <? completedPomodoros s + 1) = true).
    { apply Z.ltb_lt. destruct s; simpl in *; lia. }
    rewrite H. reflexivity. }
  split; [exact Htot|]. split; [apply Hlong; reflexivity|]. split.
  - intros s2 Hrun.
    destruct (breakRun_keeps validEvent s1 s2 (fun e H => H) HI1 Hb1 Hrun)
      as (_ & Hb2 & E & _).
    split; [apply Hlong, E|].
    rewrite totalDuration_display, Hb2, (Hlong s2 E). reflexivity.
  - intros s2 Hrun.
    destruct (breakRun_keeps userAction s1 s2 userAction_valid HI1 Hb1 Hrun)
      as (_ & Hb2 & E & Hdur).
    specialize (Hdur userAction_not_edit).
    rewrite <- Htot. unfold totalDuration. rewrite Hb2, Hb1, E.
    unfold durations in Hdur. injection Hdur as D1 D2 D3. rewrite D2, D3.
    reflexivity.
Qed.

Lemma long_break_tests_agree_witness :
  reachable lastSecond /\ isBreak lastSecond = false
  /\ match step envOk (IntervalFires 1500) lastSecond with
     | Ok (s1, _) => isBreak s1 = true /\ totalDuration s1 = timeLeft s1
     | _ => False
     end.
Proof.
  split; [apply lastSecond_reachable|]. split; [reflexivity|].
  destruct (step envOk (IntervalFires 1500) lastSecond) as [[s1 o]| |] eqn:E.
  - assert (Hb : isBreak s1 = true).
    { vm_compute in E. injection E as <- _. reflexivity. }
    split; [exact Hb|].
    exact (proj1 (long_break_tests_agree envOk 1500%nat lastSecond s1 o
                    lastSecond_reachable eq_refl E Hb)).
  - vm_compute in E. discriminate.
  - vm_compute in E. discriminate.
Defined.

(** ** Alarm failures *)

(** A failing audio backend, a missing [Notification] and a permission that is
    not granted never stop the effect. *)
Lemma alarm_failure_swallowed env s :
  notificationThrows env = false ->
  exists s1 o, playAlarm env s = Ok (s1, o) /\ deps s1 = deps s.
Proof.
  intros H.
  assert (Hal : alarmReturns env = true).
  { unfold alarmReturns. rewrite H, andb_false_r. reflexivity. }
  destruct (playAlarm_returns env s Hal) as (s1 & o & E).
  exists s1, o. split; [exact E|].
  apply playAlarm_shape in E. rewrite E. apply deps_audio.
Qed.

(** Whenever the effect returns, the state it leaves does not depend on how
    the alarm went. *)
Lemma completion_same_state env1 env2 s s1 o1 s2 o2 :
  timerEffect env1 s = Ok (s1, o1) ->
  timerEffect env2 s = Ok (s2, o2) ->
  deps s1 = deps s2.
Proof.
  unfold timerEffect. destruct (isActive s && (0 <? timeLeft s)).
  - intros E1 E2. injection E1 as <- _. injection E2 as <- _. reflexivity.
  - destruct (timeLeft s =? 0).
    + destruct (playAlarm env1 s) as [[a1 p1]| |] eqn:P1; try discriminate.
      destruct (playAlarm env2 s) as [[a2 p2]| |] eqn:P2; try discriminate.
      intros E1 E2. injection E1 as <- _. injection E2 as <- _.
      apply phaseComplete_deps.
      apply playAlarm_shape in P1. apply playAlarm_shape in P2.
      rewrite P1, P2, !deps_audio. reflexivity.
    + intros E1 E2. injection E1 as <- _. injection E2 as <- _. reflexivity.
Qed.

(** The effect throws at zero exactly when a notification is attempted and
    its constructor throws. *)
Lemma effect_throws_iff env s :
  timeLeft s = 0 -> (timerEffect env s = Threw <-> alarmReturns env = false).
Proof.
  intros Ht. unfold timerEffect. rewrite Ht, andb_false_r. simpl (0 =? 0). cbv iota.
  destruct (alarmReturns env) eqn:Hal.
  - destruct (playAlarm_returns env s Hal) as (s1 & o & E). rewrite E.
    split; discriminate.
  - rewrite (playAlarm_throws env s Hal). split; reflexivity.
Qed.

(** C9 fails on the code.  With [Notification] present and permission granted,
    a constructor that throws is not caught: the exception leaves [playAlarm]
    and the effect before any state update, so the phase completion that a
    working platform gets does not happen. *)
Theorem notification_throw_escapes :
  playAlarm envNotificationBroken atZero = Threw
  /\ timerEffect envNotificationBroken atZero = Threw
  /\ step envNotificationBroken (IntervalFires 1500) lastSecond = Threw
  /\ (exists s' o,
         step envOk (IntervalFires 1500) lastSecond = Ok (s', o)
         /\ isBreak s' = true /\ timeLeft s' = 300 /\ isActive s' = false
         /\ completedPomodoros s' = 1).
Proof.
  split; [reflexivity|]. split; [reflexivity|]. split; [reflexivity|].
  vm_compute. eexists. eexists. repeat split.
Qed.

(** ** Configuration edits *)

Lemma alarmVolume_rearm s : alarmVolume (rearm s) = alarmVolume s.
Proof.
  unfold rearm. destruct (isActive s && (0 <? timeLeft s));
    destruct s as [t a b c g w sb lb av [j|] ac tm nt]; reflexivity.
Qed.

(** C10. An edit of a duration or of the volume stores the new value and
    leaves the countdown, the running flag, the phase and the counter as they
    were.  The new durations are the ones the next reset and the next phase
    completion load. *)
Theorem config_edit_keeps_timer env e s :
  reachable s ->
  isConfigEdit e = true ->
  exists s',
    step env e s = Ok (s', [])
    /\ timeLeft s' = timeLeft s
    /\ isActive s' = isActive s
    /\ isBreak s' = isBreak s
    /\ completedPomodoros s' = completedPomodoros s
    /\ match e with
       | ChangeWorkDuration v => workDuration s' = v
       | ChangeShortBreak v => shortBreakDuration s' = v
       | ChangeLongBreak v => longBreakDuration s' = v
       | ChangeAlarmVolume v => alarmVolume s' = v
       | _ => True
       end
    /\ timeLeft (resetTimer s') = workDuration s' * 60
    /\ timeLeft (phaseComplete s') =
       (if isBreak s' then workDuration s'
        else if isLongBreakAtCompletion s' then longBreakDuration s'
             else shortBreakDuration s') * 60.
Proof.
  intros Hr He. apply reachable_Inv in Hr.
  assert (El : isLastTick e s = false) by (destruct e; try discriminate; reflexivity).
  pose proof (handle_timeLeft_pos env e s Hr El) as Hpos.
  assert (Hstep : exists s', step env e s = Ok (s', [])
                             /\ deps s' = deps (fst (handle env e s))
                             /\ alarmVolume s' = alarmVolume (fst (handle env e s))).
  { rewrite step_quiet by lia.
    assert (Ho : snd (handle env e s) = []) by (destruct e; try discriminate; reflexivity).
    rewrite Ho.
    destruct (depsEqb (deps s) (deps (fst (handle env e s)))).
    - eexists. split; [reflexivity|]. split; reflexivity.
    - eexists. split; [reflexivity|]. split; [apply deps_rearm|apply alarmVolume_rearm]. }
  destruct Hstep as (s' & E & Hd & Hav). exists s'. split; [exact E|].
  unfold deps in Hd. injection Hd as A1 A2 A3 A4 A5 A6 A7.
  assert (Hreset : timeLeft (resetTimer s') = workDuration s' * 60)
    by apply resetTimer_fields.
  assert (Hnext : timeLeft (phaseComplete s') =
       (if isBreak s' then workDuration s'
        else if isLongBreakAtCompletion s' then longBreakDuration s'
             else shortBreakDuration s') * 60).
  { unfold isLongBreakAtCompletion.
    destruct s' as [t a b c g w sb lb av ir ac tm nt]; unfold phaseComplete; simpl.
    destruct b; simpl; [reflexivity|].
    destruct (Z.rem (c + 1) 4 =? 0); reflexivity. }
  destruct e; try discriminate; simpl in *;
    destruct s as [t a b c g w sb lb av ir ac tm nt]; simpl in *;
    repeat split; assumption.
Qed.

Lemma config_edit_keeps_timer_witness :
  reachable running /\ isConfigEdit (ChangeShortBreak 10) = true
  /\ exists s', step envOk (ChangeShortBreak 10) running = Ok (s', [])
                /\ timeLeft s' = timeLeft running
                /\ shortBreakDuration s' = 10.
Proof.
  split; [apply running_reachable|]. split; [reflexivity|].
  destruct (config_edit_keeps_timer envOk (ChangeShortBreak 10) running
              running_reachable eq_refl)
    as (s' & E & Ht & _ & _ & _ & Hv & _).
  exists s'. repeat split; assumption.
Defined.

(** ** The scenarios of the specification *)

Example first_focus_phase :
  exists s o,
    startAndWait envOk 1500 initial = Ok (s, o)
    /\ timerState s = (300, false, true, 1) /\ finishedCount o = 1%nat.
Proof. vm_compute. eexists. eexists. repeat split. Qed.

Example pause_then_start :
  exists s o,
    andThen (andThen (startAndWait envOk 10 initial) (step envOk ClickToggle))
            (startAndWait envOk 5) = Ok (s, o)
    /\ timerState s = (1485, true, false, 0).
Proof. vm_compute. eexists. eexists. repeat split. Qed.

Example all_alarm_failures_swallowed :
  exists s o,
    step envNoAudioDenied (IntervalFires 1500) lastSecond = Ok (s, o)
    /\ timerState s = (300, false, true, 1)
    /\ o = [TimerFinished; ConsoleLog audioFailed].
Proof. vm_compute. eexists. eexists. repeat split. Qed.

(** A break duration edited during the break shows at once, while the
    countdown keeps the value it was given when the break began. *)
Example edit_during_break :
  exists s1 o1 s2,
    step envOk (IntervalFires 1500) lastSecond = Ok (s1, o1)
    /\ step envOk (ChangeShortBreak 10) s1 = Ok (s2, [])
    /\ timeLeft s1 = 300 /\ timeLeft s2 = 300 /\ totalDuration s2 = 600.
Proof. vm_compute. eexists. eexists. eexists. repeat split. Qed.

Example mount_effect_is_idle env : timerEffect env initial = Ok (initial, []).
Proof. reflexivity. Qed.

(** * Further properties of the component *)

(** ** The clock face *)

Lemma digitsOf_one r n acc :
  0 <= n < 10 -> digitsOf (S r) n acc = String (digitChar n) acc.
Proof.
  intros H. simpl. rewrite Z.mod_small by lia.
  assert (E : (n <? 10) = true) by (apply Z.ltb_lt; lia).
  rewrite E. reflexivity.
Qed.

Lemma digitsOf_two r n acc :
  10 <= n < 100 ->
  digitsOf (S (S r)) n acc = String (digitChar (n / 10)) (String (digitChar (n mod 10)) acc).
Proof.
  intros H. change (digitsOf (S (S r)) n acc) with
    (let acc' := String (digitChar (n mod 10)) acc in
     if n <? 10 then acc' else digitsOf (S r) (n / 10) acc').
  cbv zeta.
  assert (E : (n <? 10) = false) by (apply Z.ltb_ge; lia).
  rewrite E. apply digitsOf_one.
  split; [apply Z.div_pos; lia|apply Z.div_lt_upper_bound; lia].
Qed.

(** Two padded digits for every number below 100. *)
Lemma pad_two_digits n :
  0 <= n < 100 ->
  padStart 2 "0"%char (numberToString n)
  = String (digitChar (n / 10)) (String (digitChar (n mod 10)) EmptyString).
Proof.
  intros H. unfold numberToString.
  assert (E : (n <? 0) = false) by (apply Z.ltb_ge; lia).
  rewrite E.
  destruct (Z_lt_ge_dec n 10) as [Hs|Hb].
  - rewrite digitsOf_one by lia.
    rewrite Z.div_small, Z.mod_small by lia. reflexivity.
  - destruct (Z.to_nat n) as [|k] eqn:Ek; [lia|].
    rewrite digitsOf_two by lia. reflexivity.
Qed.

Lemma digitChar_inj a b :
  0 <= a < 10 -> 0 <= b < 10 -> digitChar a = digitChar b -> a = b.
Proof.
  intros Ha Hb E. unfold digitChar in E.
  apply (f_equal nat_of_ascii) in E.
  rewrite !nat_ascii_embedding in E by lia. lia.
Qed.

Lemma formatTime_digits n :
  0 <= n < 6000 ->
  formatTime n =
  String (digitChar (n / 60 / 10))
    (String (digitChar ((n / 60) mod 10))
       (String ":"%char
          (String (digitChar ((n mod 60) / 10))
             (String (digitChar ((n mod 60) mod 10)) EmptyString)))).
Proof.
  intros H. unfold formatTime. cbv zeta.
  rewrite Z.rem_mod_nonneg by lia.
  assert (Hm : 0 <= n / 60 < 100).
  { split; [apply Z.div_pos; lia|apply Z.div_lt_upper_bound; lia]. }
  assert (Hs : 0 <= n mod 60 < 100).
  { pose proof (Z.mod_pos_bound n 60). lia. }
  rewrite (pad_two_digits _ Hm), (pad_two_digits _ Hs). reflexivity.
Qed.

(** X1. For a countdown below 100 minutes [formatTime] is the five-character
    clock: two digits of minutes, a colon, two digits of seconds. *)
Theorem formatTime_clock n :
  0 <= n < 6000 ->
  formatTime n =
  String (digitChar (n / 60 / 10))
    (String (digitChar ((n / 60) mod 10))
       (String ":"%char
          (String (digitChar ((n mod 60) / 10))
             (String (digitChar ((n mod 60) mod 10)) EmptyString)))).
Proof. exact (formatTime_digits n). Qed.

Lemma formatTime_clock_witness :
  0 <= 1500 < 6000 /\ formatTime 1500 = "25:00"%string.
Proof.
  assert (H : 0 <= 1500 < 6000) by lia.
  split; [exact H|].
  rewrite (formatTime_clock 1500 H). reflexivity.
Defined.

(** X2. Below 100 minutes two different countdowns never show the same
    clock. *)
Theorem formatTime_injective a b :
  0 <= a < 6000 -> 0 <= b < 6000 -> formatTime a = formatTime b -> a = b.
Proof.
  intros Ha Hb E.
  rewrite (formatTime_digits a Ha), (formatTime_digits b Hb) in E.
  injection E as E1 E2 E3 E4.
  assert (Hma : 0 <= a / 60 < 100).
  { split; [apply Z.div_pos; lia|apply Z.div_lt_upper_bound; lia]. }
  assert (Hmb : 0 <= b / 60 < 100).
  { split; [apply Z.div_pos; lia|apply Z.div_lt_upper_bound; lia]. }
  pose proof (Z.mod_pos_bound a 60) as Hsa.
  pose proof (Z.mod_pos_bound b 60) as Hsb.
  assert (D : forall x y, 0 <= x < 100 -> 0 <= y < 100 ->
                digitChar (x / 10) = digitChar (y / 10) ->
                digitChar (x mod 10) = digitChar (y mod 10) -> x = y).
  { intros x y Hx Hy F1 F2.
    apply digitChar_inj in F1.
    - apply digitChar_inj in F2.
      + rewrite (Z.div_mod x 10), (Z.div_mod y 10) by lia. congruence.
      + apply Z.mod_pos_bound. lia.
      + apply Z.mod_pos_bound. lia.
    - split; [apply Z.div_pos; lia|apply Z.div_lt_upper_bound; lia].
    - split; [apply Z.div_pos; lia|apply Z.div_lt_upper_bound; lia]. }
  assert (Em : a / 60 = b / 60) by (apply D; assumption).
  assert (Es : a mod 60 = b mod 60) by (apply D; try assumption; lia).
  rewrite (Z.div_mod a 60), (Z.div_mod b 60) by lia. congruence.
Qed.

Lemma formatTime_injective_witness :
  0 <= 300 < 6000 /\ 0 <= 300 < 6000 /\ 300 = 300.
Proof.
  assert (H : 0 <= 300 < 6000) by lia.
  split; [exact H|]. split; [exact H|].
  exact (formatTime_injective 300 300 H H eq_refl).
Defined.

Lemma after_timeLeft_le env e s :
  Inv s -> timeLeft s <= 3600 -> timeLeft (after env e s) <= 3600.
Proof.
  intros [(H1 & H2 & H3 & H4) Ha] Hle. unfold validConfig in H3.
  unfold after. destruct (isLastTick e s).
  - destruct s as [t a b c g w sb lb av ir ac tm nt]; simpl in *.
    unfold phaseComplete; simpl. destruct b; simpl; [lia|].
    destruct (Z.rem (c + 1) 4 =? 0); simpl; lia.
  - destruct e; simpl;
      try (destruct s as [t a b c g w sb lb av [j|] ac tm nt]; simpl in *; lia).
    + unfold toggleTimer. destruct s as [t a b c g w sb lb av ir ac tm nt]; simpl in *.
      destruct ac; simpl; [|destruct (audioContextThrows env)]; simpl; exact Hle.
    + destruct (existsb (Nat.eqb id) (timers s)); destruct s; simpl in *; lia.
Qed.

Lemma reachable_timeLeft_le s : reachable s -> timeLeft s <= 3600.
Proof.
  intros Hr. induction Hr as [|env e s s' o Hr IH Ha Hs].
  - simpl. lia.
  - pose proof (reachable_Inv s Hr) as HI.
    rewrite (timeLeft_deps _ _ (step_deps _ _ _ _ _ HI Hs)).
    apply after_timeLeft_le; assumption.
Qed.

(** X3. Whatever the events, the countdown stays between one second and one
    hour, so the clock always has its five characters. *)
Theorem clock_always_five s :
  reachable s ->
  0 < timeLeft s <= 3600 /\ String.length (formatTime (timeLeft s)) = 5%nat.
Proof.
  intros Hr. pose proof (reachable_timeLeft_le s Hr) as Hle.
  apply reachable_Inv in Hr. destruct Hr as [(Hpos & _) _].
  split; [lia|].
  rewrite formatTime_digits by lia. reflexivity.
Qed.

Lemma clock_always_five_witness :
  reachable lastSecond /\ formatTime (timeLeft lastSecond) = "00:01"%string
  /\ String.length (formatTime (timeLeft lastSecond)) = 5%nat.
Proof.
  split; [apply lastSecond_reachable|]. split; [reflexivity|].
  exact (proj2 (clock_always_five lastSecond lastSecond_reachable)).
Defined.

Lemma length_append (a b : string) :
  String.length (a ++ b) = (String.length a + String.length b)%nat.
Proof. induction a as [|c a IH]; simpl; [reflexivity|]. rewrite IH. reflexivity. Qed.

Lemma repeatChar_length c k : String.length (repeatChar c k) = k.
Proof. induction k as [|k IH]; simpl; [reflexivity|]. rewrite IH. reflexivity. Qed.

Lemma padStart_length t c s :
  String.length (padStart t c s) = Nat.max t (String.length s).
Proof. unfold padStart. rewrite length_append, repeatChar_length. lia. Qed.

Lemma digitsOf_length_ge r : forall n acc,
  (String.length acc <= String.length (digitsOf r n acc))%nat.
Proof.
  induction r as [|r IH]; intros n acc; simpl; [lia|].
  destruct (n <? 10); simpl; [lia|].
  specialize (IH (n / 10) (String (digitChar (n mod 10)) acc)). simpl in IH. lia.
Qed.

Lemma digitsOf_length_S r n acc :
  (S (String.length acc) <= String.length (digitsOf (S r) n acc))%nat.
Proof.
  change (digitsOf (S r) n acc) with
    (let acc' := String (digitChar (n mod 10)) acc in
     if n <? 10 then acc' else digitsOf r (n / 10) acc').
  cbv zeta. destruct (n <? 10).
  - cbn [String.length]. lia.
  - pose proof (digitsOf_length_ge r (n / 10) (String (digitChar (n mod 10)) acc)) as L.
    cbn [String.length] in L. exact L.
Qed.

Lemma digitsOf_step r n acc :
  10 <= n ->
  digitsOf (S r) n acc = digitsOf r (n / 10) (String (digitChar (n mod 10)) acc).
Proof.
  intros H.
  change (digitsOf (S r) n acc) with
    (let acc' := String (digitChar (n mod 10)) acc in
     if n <? 10 then acc' else digitsOf r (n / 10) acc').
  cbv zeta.
  assert (E : (n <? 10) = false) by (apply Z.ltb_ge; lia).
  rewrite E. reflexivity.
Qed.

Lemma digitsOf_length_three r n acc :
  100 <= n ->
  (3 + String.length acc <= String.length (digitsOf (S (S (S r))) n acc))%nat.
Proof.
  intros H. rewrite digitsOf_step by lia.
  rewrite digitsOf_step by (apply Z.div_le_lower_bound; lia).
  pose proof (digitsOf_length_S r (n / 10 / 10)
                (String (digitChar ((n / 10) mod 10))
                        (String (digitChar (n mod 10)) acc))) as L.
  cbn [String.length] in L. lia.
Qed.

(** X4. [padStart] never cuts: the clock has at least five characters for
    every number of seconds, and more than five from 100 minutes on. *)
Theorem formatTime_never_truncates n :
  (5 <= String.length (formatTime n))%nat
  /\ (6000 <= n -> (5 < String.length (formatTime n))%nat).
Proof.
  unfold formatTime. cbv zeta.
  rewrite !length_append, !padStart_length. cbn [String.length].
  split; [lia|].
  intros H.
  assert (Hm : 100 <= n / 60) by (apply Z.div_le_lower_bound; lia).
  unfold numberToString at 1.
  assert (E : (n / 60 <? 0) = false) by (apply Z.ltb_ge; lia).
  rewrite E.
  destruct (Z.to_nat (n / 60)) as [|[|k]] eqn:Ek; try lia.
  pose proof (digitsOf_length_three k (n / 60) EmptyString Hm) as L.
  cbn [String.length] in L. lia.
Qed.

Lemma formatTime_never_truncates_witness :
  6000 <= 6000 /\ formatTime 6000 = "100:00"%string
  /\ (5 < String.length (formatTime 6000))%nat.
Proof.
  assert (H : 6000 <= 6000) by lia.
  split; [exact H|]. split; [reflexivity|].
  exact (proj2 (formatTime_never_truncates 6000) H).
Defined.

Example formatTime_negative : formatTime (-1) = "-1:-1"%string.
Proof. reflexivity. Qed.

(** ** What each event changes *)

Lemma after_fields env e s :
  timerState (after env e s) =
  if isLastTick e s
  then (timeLeft (phaseComplete (onInterval s)), false, negb (isBreak s),
        if isBreak s then completedPomodoros s else completedPomodoros s + 1)
  else
    match e with
    | ClickToggle =>
        (timeLeft s, negb (isActive s), isBreak s, completedPomodoros s)
    | ClickReset =>
        (workDuration s * 60, false, false, completedPomodoros s)
    | ClickResetSession => (workDuration s * 60, false, false, 0)
    | IntervalFires id =>
        if existsb (Nat.eqb id) (timers s)
        then (timeLeft s - 1, isActive s, isBreak s, completedPomodoros s)
        else timerState s
    | _ => timerState s
    end.
Proof.
  unfold after. destruct (isLastTick e s).
  - destruct s as [t a b c g w sb lb av ir ac tm nt]; unfold phaseComplete; simpl.
    destruct b; reflexivity.
  - destruct e; simpl;
      try (destruct s as [t a b c g w sb lb av [j|] ac tm nt]; reflexivity).
    + unfold toggleTimer. destruct s as [t a b c g w sb lb av ir ac tm nt]; simpl.
      destruct ac; simpl; [|destruct (audioContextThrows env)]; reflexivity.
    + destruct (existsb (Nat.eqb id) (timers s)); destruct s; reflexivity.
Qed.

Lemma step_fields env e s s' o :
  Inv s -> step env e s = Ok (s', o) -> timerState s' = timerState (after env e s).
Proof.
  intros HI Hs. apply (deps_views s' (after env e s)).
  eapply step_deps; eassumption.
Qed.

(** X5. The counter moves in two ways only: the tick that completes a focus
    phase adds one, and a session reset sets it to 0.  Every other event,
    the completion of a break included, leaves it. *)
Theorem counter_changes env e s s' o :
  reachable s ->
  step env e s = Ok (s', o) ->
  completedPomodoros s' =
  if isLastTick e s
  then (if isBreak s then completedPomodoros s else completedPomodoros s + 1)
  else match e with
       | ClickResetSession => 0
       | _ => completedPomodoros s
       end.
Proof.
  intros Hr Hs. apply reachable_Inv in Hr.
  pose proof (step_fields _ _ _ _ _ Hr Hs) as Hf.
  rewrite after_fields in Hf. unfold timerState in Hf.
  destruct (isLastTick e s).
  - injection Hf as _ _ _ H. exact H.
  - destruct e; try (injection Hf as _ _ _ H; exact H).
    destruct (existsb (Nat.eqb id) (timers s)); injection Hf as _ _ _ H; exact H.
Qed.

Lemma counter_changes_witness :
  reachable lastSecond
  /\ exists s' o, step envOk (IntervalFires 1500) lastSecond = Ok (s', o)
                  /\ completedPomodoros s' = 1.
Proof.
  split; [apply lastSecond_reachable|].
  destruct (step envOk (IntervalFires 1500) lastSecond) as [[s' o]| |] eqn:E.
  - exists s', o. split; [reflexivity|].
    exact (counter_changes envOk (IntervalFires 1500) lastSecond s' o
             lastSecond_reachable E).
  - vm_compute in E. discriminate.
  - vm_compute in E. discriminate.
Defined.

(** X6. The timer never starts by itself: the running flag is set only by the
    start/pause control, and every phase completion and every reset clears
    it. *)
Theorem running_flag_changes env e s s' o :
  reachable s ->
  step env e s = Ok (s', o) ->
  isActive s' =
  (if isLastTick e s then false
   else match e with
        | ClickToggle => negb (isActive s)
        | ClickReset | ClickResetSession => false
        | _ => isActive s
        end)
  /\ (isActive s = false -> isActive s' = true -> e = ClickToggle).
Proof.
  intros Hr Hs. apply reachable_Inv in Hr.
  pose proof (step_fields _ _ _ _ _ Hr Hs) as Hf.
  rewrite after_fields in Hf. unfold timerState in Hf.
  assert (H : isActive s' =
              (if isLastTick e s then false
               else match e with
                    | ClickToggle => negb (isActive s)
                    | ClickReset | ClickResetSession => false
                    | _ => isActive s
                    end)).
  { destruct (isLastTick e s).
    - injection Hf as _ H _ _. exact H.
    - destruct e; try (injection Hf as _ H _ _; exact H).
      destruct (existsb (Nat.eqb id) (timers s)); injection Hf as _ H _ _; exact H. }
  split; [exact H|].
  intros H0 H1. rewrite H1 in H.
  destruct (isLastTick e s); [discriminate|].
  destruct e; try reflexivity; congruence.
Qed.

Lemma running_flag_changes_witness :
  reachable initial
  /\ exists s' o, step envOk ClickToggle initial = Ok (s', o)
                  /\ isActive s' = true.
Proof.
  split; [apply reach_start|].
  destruct (step envOk ClickToggle initial) as [[s' o]| |] eqn:E.
  - exists s', o. split; [reflexivity|].
    exact (proj1 (running_flag_changes envOk ClickToggle initial s' o
                    (reach_start _ _) E)).
  - vm_compute in E. discriminate.
  - vm_compute in E. discriminate.
Defined.

(** X7. The phase flips exactly at the completing tick and goes back to focus
    on a reset; no other event touches it, so the [Next:] label of a focus
    phase changes only when the phase or the counter does. *)
Theorem phase_changes env e s s' o :
  reachable s ->
  step env e s = Ok (s', o) ->
  isBreak s' =
  (if isLastTick e s then negb (isBreak s)
   else match e with
        | ClickReset | ClickResetSession => false
        | _ => isBreak s
        end)
  /\ (isLastTick e s = false -> e <> ClickReset -> e <> ClickResetSession ->
      nextLabel s' = nextLabel s).
Proof.
  intros Hr Hs. apply reachable_Inv in Hr.
  pose proof (step_fields _ _ _ _ _ Hr Hs) as Hf.
  rewrite after_fields in Hf. unfold timerState in Hf.
  split.
  - destruct (isLastTick e s).
    + injection Hf as _ _ H _. exact H.
    + destruct e; try (injection Hf as _ _ H _; exact H).
      destruct (existsb (Nat.eqb id) (timers s)); injection Hf as _ _ H _; exact H.
  - intros El N1 N2. rewrite El in Hf. unfold nextLabel.
    destruct e; try contradiction;
      try (injection Hf as _ _ H3 H4; rewrite H3, H4; reflexivity).
    destruct (existsb (Nat.eqb id) (timers s));
      injection Hf as _ _ H3 H4; rewrite H3, H4; reflexivity.
Qed.

Lemma phase_changes_witness :
  reachable lastSecond
  /\ exists s' o, step envOk (IntervalFires 1500) lastSecond = Ok (s', o)
                  /\ isBreak s' = true.
Proof.
  split; [apply lastSecond_reachable|].
  destruct (step envOk (IntervalFires 1500) lastSecond) as [[s' o]| |] eqn:E.
  - exists s', o. split; [reflexivity|].
    exact (proj1 (phase_changes envOk (IntervalFires 1500) lastSecond s' o
                    lastSecond_reachable E)).
  - vm_compute in E. discriminate.
  - vm_compute in E. discriminate.
Defined.

(** X8. The [Next:] label tells the truth: the phase that the completing tick
    starts is the one the label announced, with that phase's duration. *)
Theorem next_label_predicts env id s :
  reachable s ->
  isLastTick (IntervalFires id) s = true ->
  alarmReturns env = true ->
  exists s' o,
    step env (IntervalFires id) s = Ok (s', o)
    /\ (nextLabel s = "Focus"%string ->
        isBreak s' = false /\ timeLeft s' = workDuration s * 60)
    /\ (nextLabel s = "Long Break"%string ->
        isBreak s' = true /\ timeLeft s' = longBreakDuration s * 60)
    /\ (nextLabel s = "Short Break"%string ->
        isBreak s' = true /\ timeLeft s' = shortBreakDuration s * 60).
Proof.
  intros Hr El Hal. apply reachable_Inv in Hr.
  destruct (step_returns env (IntervalFires id) s Hr (or_intror Hal)) as (s' & o & E).
  exists s', o. split; [exact E|].
  pose proof (step_fields _ _ _ _ _ Hr E) as Hf.
  unfold after in Hf. rewrite El in Hf. unfold timerState in Hf.
  injection Hf as H1 _ H3 _. rewrite H1, H3. clear H1 H3 E.
  unfold nextLabel.
  destruct s as [t a b c g w sb lb av ir ac tm nt]; unfold phaseComplete; simpl.
  destruct b; simpl.
  - repeat split; try discriminate; reflexivity.
  - destruct (Z.rem (c + 1) 4 =? 0); repeat split; try discriminate; reflexivity.
Qed.

Lemma next_label_predicts_witness :
  reachable lastSecond
  /\ isLastTick (IntervalFires 1500) lastSecond = true
  /\ alarmReturns envOk = true
  /\ nextLabel lastSecond = "Short Break"%string
  /\ exists s' o, step envOk (IntervalFires 1500) lastSecond = Ok (s', o)
                  /\ isBreak s' = true /\ timeLeft s' = 5 * 60.
Proof.
  split; [apply lastSecond_reachable|]. repeat (split; [reflexivity|]).
  destruct (next_label_predicts envOk 1500%nat lastSecond
              lastSecond_reachable eq_refl eq_refl) as (s' & o & E & _ & _ & H).
  exists s', o. split; [exact E|]. exact (H eq_refl).
Defined.

(** X9. A cleared interval never ticks.  While the timer is stopped, after a
    pause, a reset or a completed phase, no interval firing changes anything;
    while it runs, only the interval held in [intervalRef] does. *)
Theorem stale_interval_ignored env id s :
  reachable s ->
  isActive s = false \/ intervalRef s <> Some id ->
  step env (IntervalFires id) s = Ok (s, []).
Proof.
  intros Hr H. apply reachable_Inv in Hr. destruct Hr as [_ Ha].
  assert (E : existsb (Nat.eqb id) (timers s) = false).
  { unfold armedOK in Ha. destruct (isActive s).
    - destruct H as [H|H]; [discriminate|].
      destruct (intervalRef s) as [j|]; [|contradiction].
      rewrite Ha. simpl. rewrite orb_false_r. apply Nat.eqb_neq. congruence.
    - rewrite Ha. reflexivity. }
  unfold step. simpl handle. rewrite E.
  rewrite settle_stable by apply depsEqb_refl. reflexivity.
Qed.

Lemma stale_interval_ignored_witness :
  exists s,
    step envOk ClickToggle running = Ok (s, [])
    /\ reachable s /\ isActive s = false
    /\ step envOk (IntervalFires 1) s = Ok (s, []).
Proof.
  destruct (step envOk ClickToggle running) as [[s o]| |] eqn:E;
    try (vm_compute in E; discriminate).
  assert (Ho : o = []) by (vm_compute in E; injection E as _ <-; reflexivity).
  subst o. exists s.
  assert (Hr : reachable s)
    by exact (reach_step validEvent initial envOk ClickToggle running s []
                running_reachable eq_refl E).
  assert (Ha : isActive s = false)
    by (vm_compute in E; injection E as <-; reflexivity).
  split; [reflexivity|]. split; [exact Hr|]. split; [exact Ha|].
  exact (stale_interval_ignored envOk 1%nat s Hr (or_introl Ha)).
Defined.

(** X10. Pause and start again: the countdown, the phase, the counter and the
    durations are what they were, and as many intervals are armed as before. *)
Theorem pause_resume env1 env2 s :
  reachable s ->
  exists s1 o1 s2 o2,
    step env1 ClickToggle s = Ok (s1, o1)
    /\ step env2 ClickToggle s1 = Ok (s2, o2)
    /\ timerState s2 = timerState s
    /\ durations s2 = durations s
    /\ List.length (timers s2) = List.length (timers s).
Proof.
  intros Hr. apply reachable_Inv in Hr.
  destruct (step_returns env1 ClickToggle s Hr (or_introl eq_refl)) as (s1 & o1 & E1).
  pose proof (step_Inv env1 ClickToggle s s1 o1 Hr eq_refl E1) as HI1.
  destruct (step_returns env2 ClickToggle s1 HI1 (or_introl eq_refl)) as (s2 & o2 & E2).
  pose proof (step_Inv env2 ClickToggle s1 s2 o2 HI1 eq_refl E2) as HI2.
  exists s1, o1, s2, o2. split; [exact E1|]. split; [exact E2|].
  pose proof (step_deps _ _ _ _ _ Hr E1) as D1.
  pose proof (step_deps _ _ _ _ _ HI1 E2) as D2.
  unfold after in D1, D2. simpl in D1, D2.
  rewrite toggleTimer_deps in D1, D2.
  unfold deps in D1. injection D1 as A1 A2 A3 A4 A5 A6 A7.
  rewrite A1, A2, A3, A4, A5, A6, A7, negb_involutive in D2.
  change (deps s2 = deps s) in D2.
  apply deps_views in D2. destruct D2 as [T D].
  split; [exact T|]. split; [exact D|].
  assert (Ea : isActive s2 = isActive s)
    by (unfold timerState in T; injection T as _ H _ _; exact H).
  destruct HI2 as [_ Ha2]. destruct Hr as [_ Ha]. unfold armedOK in *.
  rewrite Ea in Ha2. destruct (isActive s).
  - destruct (intervalRef s2); [|contradiction].
    destruct (intervalRef s); [|contradiction]. rewrite Ha, Ha2. reflexivity.
  - rewrite Ha, Ha2. reflexivity.
Qed.

Lemma pause_resume_witness :
  reachable running
  /\ exists s1 o1 s2 o2,
       step envOk ClickToggle running = Ok (s1, o1)
       /\ step envOk ClickToggle s1 = Ok (s2, o2)
       /\ timerState s2 = timerState running.
Proof.
  split; [apply running_reachable|].
  destruct (pause_resume envOk envOk running running_reachable)
    as (s1 & o1 & s2 & o2 & E1 & E2 & T & _).
  exists s1, o1, s2, o2. repeat split; assumption.
Defined.

(** ** The interval and the dependency array *)

(** X11. Opening or closing the settings panel and moving the volume slider
    change their own cell and nothing else in any state: neither is a
    dependency of the effect, so the armed interval is left alone.  Opening
    and closing the panel gives the state back. *)
Theorem settings_and_volume_keep_interval env s :
  step env ClickSettings s = Ok (setShowSettings (negb (showSettings s)) s, [])
  /\ (forall v, step env (ChangeAlarmVolume v) s = Ok (setAlarmVolume v s, []))
  /\ (exists s1, step env ClickSettings s = Ok (s1, [])
                 /\ step env ClickSettings s1 = Ok (s, [])).
Proof.
  assert (H1 : forall x, step env ClickSettings x
                         = Ok (setShowSettings (negb (showSettings x)) x, [])).
  { intros x. unfold step. cbn [handle]. rewrite settle_stable; [reflexivity|].
    apply depsEqb_true. destruct x; reflexivity. }
  split; [apply H1|]. split.
  - intros v. unfold step. cbn [handle]. rewrite settle_stable; [reflexivity|].
    apply depsEqb_true. destruct s; reflexivity.
  - exists (setShowSettings (negb (showSettings s)) s). split; [apply H1|].
    rewrite H1. f_equal. f_equal.
    destruct s as [t a b c g w sb lb av ir ac tm nt]; simpl.
    rewrite negb_involutive. reflexivity.
Qed.

Lemma durationChanged_deps env e s :
  durationChanged e s -> deps s <> deps (fst (handle env e s)).
Proof.
  destruct e; simpl; try contradiction;
    intros H E; apply H; destruct s; unfold deps in E; simpl in *;
    injection E; intros; congruence.
Qed.

(** X12. The durations are dependencies of the effect: moving one of them to
    another value while the timer runs clears the armed interval and arms a
    new one, so the second in progress starts over; the countdown itself is
    not touched.  Setting a duration to the value it has changes nothing. *)
Theorem duration_edit_rearms :
  (forall env e s,
      reachable s ->
      isActive s = true ->
      durationChanged e s ->
      exists s',
        step env e s = Ok (s', [])
        /\ timers s' = [nextTimer s]
        /\ intervalRef s' = Some (nextTimer s)
        /\ nextTimer s' = S (nextTimer s)
        /\ timeLeft s' = timeLeft s)
  /\ (forall env s,
         step env (ChangeWorkDuration (workDuration s)) s = Ok (s, [])
         /\ step env (ChangeShortBreak (shortBreakDuration s)) s = Ok (s, [])
         /\ step env (ChangeLongBreak (longBreakDuration s)) s = Ok (s, [])).
Proof.
  split.
  - intros env e s Hr Hact Hch. apply reachable_Inv in Hr.
    assert (El : isLastTick e s = false) by (destruct e; try contradiction; reflexivity).
    pose proof (handle_timeLeft_pos env e s Hr El) as Hpos.
    rewrite step_quiet by lia.
    rewrite (depsEqb_false _ _ (durationChanged_deps env e s Hch)).
    destruct Hr as [(H1 & _) Ha]. unfold armedOK in Ha. rewrite Hact in Ha.
    assert (Ht : (0 <? timeLeft s) = true) by (apply Z.ltb_lt; exact H1).
    destruct e; try contradiction;
      destruct s as [t a b c g w sb lb av [j|] ac tm nt]; simpl in *;
      try contradiction; subst a tm;
      (eexists; split; [reflexivity|]);
      unfold rearm, cleanup; simpl; rewrite Ht; simpl;
      rewrite Nat.eqb_refl; simpl; repeat split.
  - intros env s.
    assert (H : forall e, fst (handle env e s) = s -> snd (handle env e s) = [] ->
                          step env e s = Ok (s, [])).
    { intros e E1 E2. unfold step.
      destruct (handle env e s) as [s1 o1]. simpl in E1, E2. subst s1 o1.
      rewrite settle_stable by apply depsEqb_refl. reflexivity. }
    repeat split; apply H; destruct s; reflexivity.
Qed.

Lemma duration_edit_rearms_witness :
  reachable running /\ isActive running = true
  /\ durationChanged (ChangeWorkDuration 30) running
  /\ exists s', step envOk (ChangeWorkDuration 30) running = Ok (s', [])
                /\ timers s' = [2%nat] /\ timeLeft s' = 1500.
Proof.
  assert (H : durationChanged (ChangeWorkDuration 30) running)
    by (simpl; discriminate).
  split; [apply running_reachable|]. split; [reflexivity|]. split; [exact H|].
  destruct (proj1 duration_edit_rearms envOk (ChangeWorkDuration 30) running
              running_reachable eq_refl H) as (s' & E & T & _ & _ & L).
  exists s'. repeat split; assumption.
Defined.

(** X13. From a state the component can be in, an event never sets off an
    endless chain of renders and completes at most one phase.  The only way
    an event fails is the completing tick whose notification constructor
    throws. *)
Theorem step_outcomes env e s :
  reachable s ->
  step env e s <> Diverged
  /\ (step env e s = Threw <-> isLastTick e s = true /\ alarmReturns env = false)
  /\ (forall s' o, step env e s = Ok (s', o) -> (finishedCount o <= 1)%nat).
Proof.
  intros Hr. apply reachable_Inv in Hr.
  assert (Hcase : (isLastTick e s = false \/ alarmReturns env = true)
                  \/ (isLastTick e s = true /\ alarmReturns env = false)).
  { destruct (isLastTick e s), (alarmReturns env); auto. }
  destruct Hcase as [Hok|[El Hal]].
  - destruct (step_returns env e s Hr Hok) as (s' & o & E).
    rewrite E. split; [discriminate|]. split.
    + split; [discriminate|]. intros [El Hal].
      destruct Hok as [H|H]; congruence.
    + intros s2 o2 E2. injection E2 as <- <-.
      rewrite (step_finished _ _ _ _ _ Hr E). destruct (isLastTick e s); lia.
  - assert (Et : step env e s = Threw).
    { destruct e; simpl in El; try discriminate.
      apply andb_true_iff in El. destruct El as [Earm Et]. apply Z.eqb_eq in Et.
      rewrite step_last_tick; try assumption.
      - rewrite (playAlarm_throws _ _ Hal). reflexivity.
      - apply validConfig_positive, Hr. }
    rewrite Et. split; [discriminate|]. split.
    + split; auto.
    + intros s' o E. discriminate.
Qed.

Lemma step_outcomes_witness :
  reachable lastSecond
  /\ step envNotificationBroken (IntervalFires 1500) lastSecond <> Diverged
  /\ isLastTick (IntervalFires 1500) lastSecond = true.
Proof.
  split; [apply lastSecond_reachable|].
  split; [|reflexivity].
  exact (proj1 (step_outcomes envNotificationBroken (IntervalFires 1500)
                  lastSecond lastSecond_reachable)).
Defined.

(** ** What the component emits *)

Lemma silent_output env e s s' o :
  Inv s -> isLastTick e s = false -> step env e s = Ok (s', o) ->
  o = match e with
      | ClickToggle =>
          if negb (audioContextRef s) && audioContextThrows env
          then [ConsoleLog audioContextFailed] else []
      | _ => []
      end.
Proof.
  intros HI El Hs.
  pose proof (handle_timeLeft_pos env e s HI El) as Hpos.
  rewrite step_quiet in Hs by lia. injection Hs as _ <-.
  destruct e; simpl; try reflexivity.
  - unfold toggleTimer. destruct (negb (audioContextRef s));
      [destruct (audioContextThrows env)|]; reflexivity.
  - destruct (existsb (Nat.eqb id) (timers s)); reflexivity.
Qed.

Lemma alarm_output env e s s' o :
  Inv s -> isLastTick e s = true -> step env e s = Ok (s', o) ->
  o = TimerFinished
      :: (if (audioContextRef s || negb (audioContextThrows env))
             && negb (oscillatorThrows env)
          then Beep (alarmVolume s * (3 # 10))%Q
          else ConsoleLog audioFailed)
      :: (if notificationInWindow env && isGranted (permission env)
          then [Notification
                  (if isBreak s then "Break time is over!" else "Pomodoro completed!")
                  (if isBreak s then "Time to get back to work!" else "Time for a break!")]
          else []).
Proof.
  intros HI El Hs.
  destruct e; simpl in El; try discriminate.
  apply andb_true_iff in El. destruct El as [Earm Et]. apply Z.eqb_eq in Et.
  rewrite step_last_tick in Hs; try assumption.
  2:{ apply validConfig_positive, HI. }
  destruct (playAlarm env (cleanup (onInterval s))) as [[s2 o2]| |] eqn:Ep;
    try discriminate.
  injection Hs as _ <-. f_equal.
  revert Ep. unfold playAlarm, playBeep.
  replace (audioContextRef (cleanup (onInterval s))) with (audioContextRef s)
    by (destruct s as [t a b c g w sb lb av [j|] ac tm nt]; reflexivity).
  replace (alarmVolume (cleanup (onInterval s))) with (alarmVolume s)
    by (destruct s as [t a b c g w sb lb av [j|] ac tm nt]; reflexivity).
  replace (isBreak (cleanup (onInterval s))) with (isBreak s)
    by (destruct s as [t a b c g w sb lb av [j|] ac tm nt]; reflexivity).
  destruct (audioContextRef s), (audioContextThrows env), (oscillatorThrows env);
    simpl;
    (destruct (notificationInWindow env && isGranted (permission env));
     [destruct (notificationThrows env); [discriminate|]|]);
    intros E; injection E as _ <-; reflexivity.
Qed.

(** X14. The alarm is kept for phase completions: an event that does not
    complete a phase emits no tone and no notification.  Its only possible
    output is the console line of the start/pause control when there is no
    audio context yet and none can be made. *)
Theorem alarm_only_at_completion env e s s' o :
  reachable s ->
  isLastTick e s = false ->
  step env e s = Ok (s', o) ->
  o = match e with
      | ClickToggle =>
          if negb (audioContextRef s) && audioContextThrows env
          then [ConsoleLog audioContextFailed] else []
      | _ => []
      end
  /\ existsb isBeep o = false /\ existsb isNotification o = false.
Proof.
  intros Hr El Hs. apply reachable_Inv in Hr.
  pose proof (silent_output _ _ _ _ _ Hr El Hs) as Ho.
  split; [exact Ho|]. rewrite Ho.
  destruct e; try (split; reflexivity).
  destruct (negb (audioContextRef s) && audioContextThrows env); split; reflexivity.
Qed.

Lemma alarm_only_at_completion_witness :
  reachable initial
  /\ isLastTick ClickToggle initial = false
  /\ exists s', step envNoAudioDenied ClickToggle initial
                = Ok (s', [ConsoleLog audioContextFailed]).
Proof.
  split; [apply reach_start|]. split; [reflexivity|].
  destruct (step envNoAudioDenied ClickToggle initial) as [[s' o]| |] eqn:E;
    try (vm_compute in E; discriminate).
  exists s'. f_equal. f_equal.
  exact (proj1 (alarm_only_at_completion envNoAudioDenied ClickToggle initial s' o
                  (reach_start _ _) eq_refl E)).
Defined.

(** X15. What the completing tick emits, in order: the tone at three tenths
    of the volume, or the console line when no audio context can be had or the
    oscillator fails; then, when [Notification] exists and permission is
    granted, one notification whose text names the phase that ended. *)
Theorem completion_output env id s s' o :
  reachable s ->
  isLastTick (IntervalFires id) s = true ->
  step env (IntervalFires id) s = Ok (s', o) ->
  o = TimerFinished
      :: (if (audioContextRef s || negb (audioContextThrows env))
             && negb (oscillatorThrows env)
          then Beep (alarmVolume s * (3 # 10))%Q
          else ConsoleLog audioFailed)
      :: (if notificationInWindow env && isGranted (permission env)
          then [Notification
                  (if isBreak s then "Break time is over!" else "Pomodoro completed!")
                  (if isBreak s then "Time to get back to work!" else "Time for a break!")]
          else []).
Proof.
  intros Hr El Hs. apply reachable_Inv in Hr.
  exact (alarm_output _ _ _ _ _ Hr El Hs).
Qed.

Lemma completion_output_witness :
  reachable lastSecond
  /\ isLastTick (IntervalFires 1500) lastSecond = true
  /\ exists s', step envOk (IntervalFires 1500) lastSecond
                = Ok (s', [TimerFinished; Beep ((5 # 10) * (3 # 10))%Q;
                           Notification "Pomodoro completed!" "Time for a break!"]).
Proof.
  split; [apply lastSecond_reachable|]. split; [reflexivity|].
  destruct (step envOk (IntervalFires 1500) lastSecond) as [[s' o]| |] eqn:E;
    try (vm_compute in E; discriminate).
  exists s'. f_equal. f_equal.
  exact (completion_output envOk 1500%nat lastSecond s' o
           lastSecond_reachable eq_refl E).
Defined.

(** X16. No notification without permission: whatever the event, a
    notification is in the output only if [Notification] exists in [window],
    permission is granted, and the event is the completing tick. *)
Theorem notification_needs_permission env e s s' o :
  reachable s ->
  step env e s = Ok (s', o) ->
  existsb isNotification o = true ->
  notificationInWindow env = true /\ permission env = granted
  /\ isLastTick e s = true.
Proof.
  intros Hr Hs Hn. apply reachable_Inv in Hr.
  destruct (isLastTick e s) eqn:El.
  - pose proof (alarm_output _ _ _ _ _ Hr El Hs) as Ho. rewrite Ho in Hn.
    destruct (notificationInWindow env) eqn:Ew.
    + destruct (permission env) eqn:Ep.
      * repeat split.
      * exfalso. simpl in Hn.
        destruct ((audioContextRef s || negb (audioContextThrows env))
                  && negb (oscillatorThrows env)); discriminate.
      * exfalso. simpl in Hn.
        destruct ((audioContextRef s || negb (audioContextThrows env))
                  && negb (oscillatorThrows env)); discriminate.
    + exfalso. simpl in Hn.
      destruct ((audioContextRef s || negb (audioContextThrows env))
                && negb (oscillatorThrows env)); discriminate.
  - exfalso. pose proof (silent_output _ _ _ _ _ Hr El Hs) as Ho. rewrite Ho in Hn.
    destruct e; try discriminate.
    destruct (negb (audioContextRef s) && audioContextThrows env); discriminate.
Qed.

Lemma notification_needs_permission_witness :
  reachable lastSecond
  /\ exists s' o, step envOk (IntervalFires 1500) lastSecond = Ok (s', o)
                  /\ existsb isNotification o = true
                  /\ permission envOk = granted.
Proof.
  split; [apply lastSecond_reachable|].
  destruct (step envOk (IntervalFires 1500) lastSecond) as [[s' o]| |] eqn:E;
    try (vm_compute in E; discriminate).
  assert (Hn : existsb isNotification o = true)
    by (vm_compute in E; injection E as _ <-; reflexivity).
  exists s', o. split; [reflexivity|]. split; [exact Hn|].
  exact (proj1 (proj2 (notification_needs_permission envOk (IntervalFires 1500)
                         lastSecond s' o lastSecond_reachable E Hn))).
Defined.

(** ** Cells that only some events touch *)

Lemma audioContextRef_rearm s : audioContextRef (rearm s) = audioContextRef s.
Proof.
  unfold rearm. destruct (isActive s && (0 <? timeLeft s));
    destruct s as [t a b c g w sb lb av [j|] ac tm nt]; reflexivity.
Qed.

Lemma playAlarm_cells env x s2 o :
  playAlarm env x = Ok (s2, o) ->
  audioContextRef s2 = audioContextRef x || negb (audioContextThrows env)
  /\ alarmVolume s2 = alarmVolume x.
Proof.
  unfold playAlarm, playBeep.
  destruct x as [t a b c g w sb lb av ir ac tm nt]; simpl.
  destruct ac, (audioContextThrows env), (oscillatorThrows env); simpl;
    (destruct (notificationInWindow env && isGranted (permission env));
     [destruct (notificationThrows env); [discriminate|]|]);
    intros E; injection E as <- _; split; reflexivity.
Qed.

(** The two cells the effect's dependencies do not cover, after an event. *)
Lemma step_cells env e s s' o :
  Inv s -> step env e s = Ok (s', o) ->
  audioContextRef s' =
  audioContextRef s
  || ((match e with ClickToggle => true | _ => isLastTick e s end)
      && negb (audioContextThrows env))
  /\ alarmVolume s' = match e with
                      | ChangeAlarmVolume v => v
                      | _ => alarmVolume s
                      end.
Proof.
  intros HI Hs. destruct (isLastTick e s) eqn:El.
  - destruct e; simpl in El; try discriminate.
    apply andb_true_iff in El. destruct El as [Earm Et]. apply Z.eqb_eq in Et.
    rewrite step_last_tick in Hs; try assumption.
    2:{ apply validConfig_positive, HI. }
    destruct (playAlarm env (cleanup (onInterval s))) as [[s2 o2]| |] eqn:Ep;
      try discriminate.
    injection Hs as <- _.
    destruct (playAlarm_cells _ _ _ _ Ep) as [A V].
    replace (audioContextRef (cleanup (phaseComplete s2))) with (audioContextRef s2).
    2:{ destruct s2 as [t a b c g w sb lb av [j|] ac tm nt];
          unfold phaseComplete; simpl; destruct b; reflexivity. }
    replace (alarmVolume (cleanup (phaseComplete s2))) with (alarmVolume s2).
    2:{ destruct s2 as [t a b c g w sb lb av [j|] ac tm nt];
          unfold phaseComplete; simpl; destruct b; reflexivity. }
    rewrite A, V. simpl.
    split; destruct s as [t a b c g w sb lb av [j|] ac tm nt]; reflexivity.
  - pose proof (handle_timeLeft_pos env e s HI El) as Hpos.
    rewrite step_quiet in Hs by lia.
    assert (H : audioContextRef s' = audioContextRef (fst (handle env e s))
                /\ alarmVolume s' = alarmVolume (fst (handle env e s))).
    { destruct (depsEqb (deps s) (deps (fst (handle env e s))));
        injection Hs as <- _; split;
        try reflexivity; [apply audioContextRef_rearm|apply alarmVolume_rearm]. }
    destruct H as [-> ->].
    destruct e; simpl;
      try (destruct s as [t a b c g w sb lb av [j|] ac tm nt]; simpl;
           rewrite ?orb_false_r; split; reflexivity).
    + unfold toggleTimer. destruct s as [t a b c g w sb lb av ir ac tm nt]; simpl.
      destruct ac; simpl; [|destruct (audioContextThrows env)]; split; reflexivity.
    + destruct (existsb (Nat.eqb id) (timers s)); destruct s; simpl;
        rewrite ?orb_false_r; split; reflexivity.
Qed.

(** X17. The audio context is made at the first press of start/pause or at
    the first phase completion at which the constructor works, and is kept
    from then on: no event clears [audioContextRef]. *)
Theorem audio_context_kept env e s s' o :
  reachable s ->
  step env e s = Ok (s', o) ->
  audioContextRef s' =
  audioContextRef s
  || ((match e with ClickToggle => true | _ => isLastTick e s end)
      && negb (audioContextThrows env))
  /\ (audioContextRef s = true -> audioContextRef s' = true).
Proof.
  intros Hr Hs. apply reachable_Inv in Hr.
  destruct (step_cells _ _ _ _ _ Hr Hs) as [A _].
  split; [exact A|]. intros H. rewrite A, H. reflexivity.
Qed.

Lemma audio_context_kept_witness :
  reachable initial
  /\ audioContextRef initial = false
  /\ exists s' o, step envOk ClickToggle initial = Ok (s', o)
                  /\ audioContextRef s' = true.
Proof.
  split; [apply reach_start|]. split; [reflexivity|].
  destruct (step envOk ClickToggle initial) as [[s' o]| |] eqn:E;
    try (vm_compute in E; discriminate).
  exists s', o. split; [reflexivity|].
  exact (proj1 (audio_context_kept envOk ClickToggle initial s' o
                  (reach_start _ _) E)).
Defined.

Lemma reachable_volume s : reachable s -> (0 <= alarmVolume s <= 1)%Q.
Proof.
  intros Hr. induction Hr as [|env e s s' o Hr IH Ha Hs].
  - split; discriminate.
  - pose proof (reachable_Inv s Hr) as HI.
    destruct (step_cells _ _ _ _ _ HI Hs) as [_ V]. rewrite V.
    destruct e; try exact IH.
    simpl in Ha. apply andb_true_iff in Ha. destruct Ha as [H0 H1].
    apply Qle_bool_iff in H0. apply Qle_bool_iff in H1. split; assumption.
Qed.

(** X18. The volume stays between 0 and 1, and every tone the component ever
    plays has a gain between 0 and three tenths. *)
Theorem gain_bounded s :
  reachable s ->
  (0 <= alarmVolume s <= 1)%Q
  /\ (forall env e s' o g,
         step env e s = Ok (s', o) -> In (Beep g) o -> (0 <= g <= 3 # 10)%Q).
Proof.
  intros Hr. pose proof (reachable_volume s Hr) as Hv.
  split; [exact Hv|].
  intros env e s' o g Hs Hin. apply reachable_Inv in Hr.
  destruct (isLastTick e s) eqn:El.
  - pose proof (alarm_output _ _ _ _ _ Hr El Hs) as Ho. rewrite Ho in Hin.
    assert (Hg : g = (alarmVolume s * (3 # 10))%Q).
    { destruct Hin as [H|[H|H]]; try discriminate.
      - destruct ((audioContextRef s || negb (audioContextThrows env))
                  && negb (oscillatorThrows env)); [|discriminate].
        injection H as <-. reflexivity.
      - destruct (notificationInWindow env && isGranted (permission env));
          [destruct H as [H|[]]; discriminate|destruct H]. }
    subst g. destruct Hv as [H0 H1].
    destruct (alarmVolume s) as [n d]. unfold Qle, Qmult in *. simpl in *.
    split; nia.
  - exfalso. pose proof (silent_output _ _ _ _ _ Hr El Hs) as Ho. rewrite Ho in Hin.
    destruct e; try (destruct Hin; fail).
    destruct (negb (audioContextRef s) && audioContextThrows env);
      [destruct Hin as [H|[]]; discriminate|destruct Hin].
Qed.

Lemma gain_bounded_witness :
  reachable lastSecond
  /\ (0 <= alarmVolume lastSecond <= 1)%Q
  /\ (0 <= (5 # 10) * (3 # 10) <= 3 # 10)%Q.
Proof.
  split; [apply lastSecond_reachable|].
  split; [exact (proj1 (gain_bounded lastSecond lastSecond_reachable))|].
  destruct (step envOk (IntervalFires 1500) lastSecond) as [[s' o]| |] eqn:E;
    try (vm_compute in E; discriminate).
  apply (proj2 (gain_bounded lastSecond lastSecond_reachable)
           envOk (IntervalFires 1500) s' o _ E).
  vm_compute in E. injection E as _ <-. right. left. reflexivity.
Defined.

(** X19. The volume label rounds to the nearest percent: it is between 0 and
    100 in every state the component can be in, and at the slider's stops
    [k/10] it reads [10 k]. *)
Theorem volume_label s :
  reachable s ->
  0 <= volumePercent s <= 100
  /\ (forall k, volumePercent (setAlarmVolume (k # 10) s) = 10 * k).
Proof.
  intros Hr. destruct (reachable_volume s Hr) as [H0 H1]. split.
  - unfold volumePercent. split.
    + change 0 with (Qfloor (0 + (1 # 2))). apply Qfloor_resp_le.
      apply Qplus_le_l. rewrite <- (Qmult_0_l 100).
      apply Qmult_le_compat_r; [exact H0|discriminate].
    + change 100 with (Qfloor (1 * 100 + (1 # 2))). apply Qfloor_resp_le.
      apply Qplus_le_l. apply Qmult_le_compat_r; [exact H1|discriminate].
  - intros k. unfold volumePercent.
    replace (alarmVolume (setAlarmVolume (k # 10) s)) with (k # 10)
      by (destruct s; reflexivity).
    unfold Qfloor, Qplus, Qmult. cbn [Qnum Qden].
    change (Z.pos (10 * 1 * 2)) with 20. change (Z.pos (10 * 1)) with 10.
    symmetry. apply Z.div_unique with (r := 10); lia.
Qed.

Lemma volume_label_witness :
  reachable initial /\ volumePercent initial = 50.
Proof.
  split; [apply reach_start|].
  pose proof (proj2 (volume_label initial (reach_start _ _)) 5) as H.
  exact H.
Defined.

(** ** Resets, whole phases, and durations of zero *)

(** X20. Resetting is idempotent, and a session reset absorbs a reset on
    either side; pressing reset on a state that was just reset changes
    nothing. *)
Theorem reset_laws :
  (forall s,
      resetTimer (resetTimer s) = resetTimer s
      /\ resetSession (resetSession s) = resetSession s
      /\ resetSession (resetTimer s) = resetSession s
      /\ resetTimer (resetSession s) = resetSession s)
  /\ (forall env s,
         workDuration s <> 0 ->
         step env ClickReset (resetTimer s) = Ok (resetTimer s, [])
         /\ step env ClickResetSession (resetSession s) = Ok (resetSession s, [])).
Proof.
  assert (H : forall s,
      resetTimer (resetTimer s) = resetTimer s
      /\ resetSession (resetSession s) = resetSession s
      /\ resetSession (resetTimer s) = resetSession s
      /\ resetTimer (resetSession s) = resetSession s).
  { intros s. destruct s as [t a b c g w sb lb av [j|] ac tm nt];
      unfold resetSession, resetTimer, cleanup; simpl;
      rewrite ?filter_idem; repeat split. }
  split; [exact H|].
  intros env s Hw. destruct (H s) as (H1 & H2 & _). split.
  - rewrite step_reset; [rewrite H1; reflexivity|].
    destruct s as [t a b c g w sb lb av [j|] ac tm nt]; exact Hw.
  - rewrite step_resetSession; [rewrite H2; reflexivity|].
    destruct s as [t a b c g w sb lb av [j|] ac tm nt]; exact Hw.
Qed.

Lemma reset_laws_witness :
  workDuration running <> 0
  /\ step envOk ClickReset (resetTimer running) = Ok (resetTimer running, []).
Proof.
  assert (H : workDuration running <> 0) by discriminate.
  split; [exact H|].
  exact (proj1 (proj2 reset_laws envOk running H)).
Defined.

Lemma phaseComplete_indep x y :
  isBreak x = isBreak y ->
  completedPomodoros x = completedPomodoros y ->
  durations x = durations y ->
  deps (phaseComplete x) = deps (phaseComplete y).
Proof.
  destruct x as [t a b c g w sb lb av ir ac tm nt].
  destruct y as [t' a' b' c' g' w' sb' lb' av' ir' ac' tm' nt'].
  unfold durations; simpl. intros -> -> E. injection E as -> -> ->.
  unfold phaseComplete; simpl. destruct b'; reflexivity.
Qed.

Lemma ticks_finish_deps env : forall (n : nat) s,
  Inv s -> isActive s = true -> timeLeft s = Z.of_nat (S n) ->
  alarmReturns env = true ->
  exists s' o,
    ticks env (S n) s = Ok (s', o) /\ finishedCount o = 1%nat
    /\ deps s' = deps (phaseComplete s).
Proof.
  induction n as [|n IH]; intros s HI Hact Ht Hal.
  - destruct (tick_last env s HI Hact Ht Hal) as (s' & o & E & Hn & _ & Hd).
    exists s', o. split; [|split; [exact Hn|]].
    + simpl. rewrite E. simpl. rewrite app_nil_r. reflexivity.
    + rewrite Hd. apply phaseComplete_indep; destruct s; reflexivity.
  - destruct (tick_run env s HI Hact) as (s1 & E1 & HI1 & Hd1); [lia|].
    pose proof Hd1 as Hd1'. rewrite deps_onInterval in Hd1. unfold deps in Hd1.
    injection Hd1 as A1 A2 A3 A4 A5 A6 A7.
    destruct (IH s1 HI1) as (s' & o & E & Hn & Hd); [congruence|lia|exact Hal|].
    exists s', o. split; [|split; [exact Hn|]].
    + change (ticks env (S (S n)) s) with (andThen (tick env s) (ticks env (S n))).
      rewrite E1. unfold andThen. rewrite E. reflexivity.
    + rewrite Hd. apply phaseComplete_indep; try assumption.
      unfold durations. congruence.
Qed.

Lemma finishedCount_app a b :
  finishedCount (a ++ b) = (finishedCount a + finishedCount b)%nat.
Proof.
  induction a as [|x a IH]; simpl; [reflexivity|].
  destruct x; simpl; rewrite IH; reflexivity.
Qed.

(** X21. A whole phase: from a stopped timer, pressing start and letting as
    many seconds pass as the countdown shows ends in exactly one phase
    completion.  The timer is stopped again, the phase has flipped, the
    countdown holds the full duration of the new phase, and the counter is one
    higher after a focus phase and unchanged after a break. *)
Theorem start_and_wait_completes env s :
  reachable s ->
  isActive s = false ->
  alarmReturns env = true ->
  exists s' o,
    startAndWait env (Z.to_nat (timeLeft s)) s = Ok (s', o)
    /\ finishedCount o = 1%nat
    /\ isActive s' = false
    /\ isBreak s' = negb (isBreak s)
    /\ timeLeft s' = totalDuration s'
    /\ completedPomodoros s' =
       (if isBreak s then completedPomodoros s else completedPomodoros s + 1).
Proof.
  intros Hr Hact Hal. apply reachable_Inv in Hr.
  destruct (step_returns env ClickToggle s Hr (or_introl eq_refl)) as (s1 & o1 & E1).
  pose proof (step_Inv env ClickToggle s s1 o1 Hr eq_refl E1) as HI1.
  pose proof (step_finished _ _ _ _ _ Hr E1) as F1. simpl in F1.
  pose proof (step_deps _ _ _ _ _ Hr E1) as D1.
  unfold after in D1. simpl in D1. rewrite toggleTimer_deps, Hact in D1.
  unfold deps in D1. injection D1 as A1 A2 A3 A4 A5 A6 A7.
  assert (Hpos : 0 < timeLeft s) by apply Hr.
  destruct (Z.to_nat (timeLeft s)) as [|n] eqn:En; [lia|].
  destruct (ticks_finish_deps env n s1 HI1 A1) as (s' & o & E & Hn & Hd);
    [lia|exact Hal|].
  exists s', (o1 ++ o). split.
  - unfold startAndWait. rewrite E1. unfold andThen. rewrite E. reflexivity.
  - rewrite finishedCount_app, F1, Hn.
    assert (Hc : 0 <= completedPomodoros s1) by apply HI1.
    pose proof (phaseComplete_total s1 Hc) as Htot.
    rewrite <- (timeLeft_deps _ _ Hd), <- (totalDuration_deps _ _ Hd) in Htot.
    apply deps_views in Hd. destruct Hd as [T _]. unfold timerState in T.
    injection T as T1 T2 T3 T4.
    rewrite T2, T3, T4, phaseComplete_isActive.
    split; [reflexivity|]. split; [reflexivity|].
    split; [|split; [exact Htot|]];
      destruct s1 as [t a b c g w sb lb av ir ac tm nt]; simpl in *;
      subst; unfold phaseComplete; simpl; destruct (isBreak s); reflexivity.
Qed.

Lemma start_and_wait_completes_witness :
  reachable initial /\ isActive initial = false /\ alarmReturns envOk = true
  /\ exists s' o, startAndWait envOk 1500 initial = Ok (s', o)
                  /\ finishedCount o = 1%nat /\ isBreak s' = true.
Proof.
  split; [apply reach_start|]. split; [reflexivity|]. split; [reflexivity|].
  destruct (start_and_wait_completes envOk initial (reach_start _ _) eq_refl eq_refl)
    as (s' & o & E & F & _ & B & _).
  exists s', o. repeat split; assumption.
Defined.

(** X22. The ranges of the sliders are what ends the chain of renders: with
    all three durations at 0, which no slider can produce, the effect at zero
    completes one phase after another and no number of renders is enough. *)
Theorem zero_durations_never_settle env : forall rounds prev s,
  alarmReturns env = true ->
  timeLeft s = 0 ->
  durations s = (0, 0, 0) ->
  prev <> deps s ->
  settle rounds env prev s = Diverged.
Proof.
  induction rounds as [|r IH]; intros prev s Hal Ht Hd Hp.
  - simpl. rewrite (depsEqb_false _ _ Hp). reflexivity.
  - rewrite settle_round by (apply depsEqb_false; exact Hp).
    unfold timerEffect. rewrite timeLeft_cleanup, Ht, andb_false_r.
    simpl (0 =? 0). cbv iota.
    destruct (playAlarm_returns env (cleanup s) Hal) as (s1 & o & Ep). rewrite Ep.
    apply playAlarm_shape in Ep.
    rewrite IH; [reflexivity|exact Hal| | |].
    + rewrite Ep. unfold durations in Hd.
      destruct s as [t a b c g w sb lb av [j|] ac tm nt]; simpl in *;
        injection Hd as -> -> ->; unfold phaseComplete; simpl;
        destruct b; simpl; try reflexivity;
        destruct (Z.rem (c + 1) 4 =? 0); reflexivity.
    + rewrite Ep.
      destruct s as [t a b c g w sb lb av [j|] ac tm nt]; simpl in *;
        unfold phaseComplete; simpl; destruct b; exact Hd.
    + rewrite Ep. intros E. apply isBreak_deps in E. revert E.
      destruct s as [t a b c g w sb lb av [j|] ac tm nt]; simpl;
        unfold phaseComplete; simpl; destruct b; discriminate.
Qed.

Lemma zero_durations_never_settle_witness :
  alarmReturns envOk = true
  /\ settle 1000 envOk (deps initial)
       (setTimeLeft 0
          (setWorkDuration 0 (setShortBreakDuration 0 (setLongBreakDuration 0 initial))))
     = Diverged.
Proof.
  split; [reflexivity|].
  apply (zero_durations_never_settle envOk); try reflexivity.
  discriminate.
Defined.

(** ** Ring and ranges *)



(** X24. In every state the component can be in the three durations are
    within the ranges of their sliders, the counter is not negative, and a
    break only ever follows a completed focus session: during a break the
    counter is at least 1, so the [completedPomodoros > 0] of the display
    formula is never what decides. *)
Theorem state_ranges s :
  reachable s ->
  15 <= workDuration s <= 60
  /\ 3 <= shortBreakDuration s <= 15
  /\ 15 <= longBreakDuration s <= 45
  /\ 0 <= completedPomodoros s
  /\ (isBreak s = true ->
      1 <= completedPomodoros s
      /\ isLongBreakAtDisplay s = (Z.rem (completedPomodoros s) 4 =? 0)).
Proof.
  intros Hr. apply reachable_Inv in Hr.
  destruct Hr as [(_ & Hc & (Hw & Hs & Hl) & Hb) _].
  repeat (split; [assumption|]).
  intros B. specialize (Hb B). split; [lia|].
  unfold isLongBreakAtDisplay.
  assert (E : (0 <? completedPomodoros s) = true) by (apply Z.ltb_lt; exact Hb).
  rewrite E. reflexivity.
Qed.

Lemma state_ranges_witness :
  reachable shortened /\ 15 <= workDuration shortened <= 60.
Proof.
  split; [apply shortened_reachable|].
  exact (proj1 (state_ranges shortened shortened_reachable)).
Defined.
